(** * SHOOT: scope narrowing, ortholog inference and large-tree decomposition

    A shallow embedding of [src/shoot/__main__.py] and
    [src/split_large_tree.py].  Python objects that the code mutates in place
    (the ete3 tree, the local variables of a loop) are threaded explicitly;
    Python exceptions are values of an error monad; Python floats are
    IEEE 754 binary64 numbers. *)

From Stdlib Require Import ZArith String Ascii List Lia SpecFloat.
From stdpp Require Import base list strings gmap pretty sorting.

Local Open Scope string_scope.
Local Open Scope list_scope.

(** ** Python exceptions and the error monad *)

Module Py.

Inductive exn : Type :=
| UnboundLocalError (var : string)
| AssertionError
| KeyError (key : string)
| ValueError (msg : string)
| AttributeError (msg : string)
| TypeError (msg : string)
| TreeError (msg : string)
| NewickError (msg : string)
| OutOfFuel.

Inductive result (A : Type) : Type :=
| Ok (a : A)
| Raise (e : exn).

Arguments Ok {A} a.
Arguments Raise {A} e.

Definition bind {A B : Type} (f : A → result B) (r : result A) : result B :=
  match r with
  | Ok a => f a
  | Raise e => Raise e
  end.

#[global] Instance result_ret : MRet result := @Ok.
#[global] Instance result_bind : MBind result := @bind.

Definition is_ok {A : Type} (r : result A) : Prop := ∃ a, r = Ok a.

(** Reading a local variable: a name that was never assigned raises
    [UnboundLocalError]. *)
Definition read_local {A : Type} (var : string) (v : option A) : result A :=
  match v with
  | Some a => Ok a
  | None => Raise (UnboundLocalError var)
  end.

(** [assert(b)] *)
Definition assert (b : bool) : result unit :=
  if b then Ok tt else Raise AssertionError.

(** [min(xs)] on a list of numbers; [ValueError] on the empty list. *)
Definition min_list (xs : list Z) : result Z :=
  match xs with
  | [] => Raise (ValueError "min() arg is an empty sequence")
  | x :: xs' => Ok (foldl Z.min x xs')
  end.

(** [xs.index(x)]: the first position holding [x]. *)
Fixpoint index (x : Z) (xs : list Z) : result nat :=
  match xs with
  | [] => Raise (ValueError "x is not in list")
  | y :: xs' => if Z.eqb y x then Ok 0%nat else i ← index x xs'; Ok (S i)
  end.

(** [s.count(c)] for a one-character pattern. *)
Fixpoint count (c : ascii) (s : string) : Z :=
  match s with
  | EmptyString => 0
  | String a s' => ((if Ascii.eqb a c then 1 else 0) + count c s')%Z
  end.

(** [s.split(sep)] for a one-character separator. *)
Fixpoint split (sep : ascii) (s : string) : list string :=
  match s with
  | EmptyString => [EmptyString]
  | String a s' =>
      if Ascii.eqb a sep then EmptyString :: split sep s'
      else match split sep s' with
           | w :: ws => String a w :: ws
           | [] => [String a EmptyString]
           end
  end.

(** [sorted(xs)] on strings (code-point order), by insertion. *)
Fixpoint insert_sorted (x : string) (xs : list string) : list string :=
  match xs with
  | [] => [x]
  | y :: ys => if String.leb x y then x :: y :: ys else y :: insert_sorted x ys
  end.

Definition sorted (xs : list string) : list string :=
  foldr insert_sorted [] xs.

End Py.

Import Py.

(** ** Python floats

    A Python [float] is an IEEE 754 binary64 number: [spec_float] with 53
    bits of precision and exponents below 1024, with the operations that
    the standard library specifies for it (rounding to nearest, ties to
    even). *)

Module PyFloat.

Local Open Scope Z_scope.

Definition float : Type := spec_float.

Definition prec : Z := 53.
Definition emax : Z := 1024.

(** [0.0] *)
Definition zero : float := S754_zero false.

(** [x + y], [x - y] and [x / y] *)
Definition fadd (x y : float) : float := SFadd prec emax x y.
Definition fsub (x y : float) : float := SFsub prec emax x y.
Definition fdiv (x y : float) : float := SFdiv prec emax x y.

(** [x > y] *)
Definition fgt (x y : float) : bool := SFltb y x.

(** [float(z)] for an integer [z] *)
Definition of_Z (z : Z) : float := binary_normalize prec emax z 0 false.

(** The integer nearest to [m * 2^e * 10^5], ties to even: the digits that
    a correctly rounded conversion to five decimals prints. *)
Definition hundred_thousandths (m : positive) (e : Z) : Z :=
  let num := Z.pos m * 100000 in
  match e with
  | Z.neg k =>
      let den := 2 ^ Z.pos k in
      let q := num / den in
      match 2 * (num mod den) ?= den with
      | Lt => q
      | Gt => q + 1
      | Eq => if Z.even q then q else q + 1
      end
  | _ => num * 2 ^ e
  end.

(** The five decimals of a count [k] below 100000, with leading zeros. *)
Definition digits5 (k : Z) : string :=
  match pretty (100000 + k) with
  | String _ s => s
  | EmptyString => ""
  end.

Definition fixed5 (negative : bool) (n : Z) : string :=
  (if negative then "-" else "") +:+ pretty (n / 100000) +:+ "."
  +:+ digits5 (n mod 100000).

(** ['%0.5f' % x] *)
Definition format_0_5f (x : float) : string :=
  match x with
  | S754_nan => "nan"
  | S754_infinity s => if s then "-inf" else "inf"
  | S754_zero s => fixed5 s 0
  | S754_finite s m e => fixed5 s (hundred_thousandths m e)
  end.

End PyFloat.

Import PyFloat.

(** ** The ete3 tree

    ete3 is a third-party library; the definitions below follow the
    behaviour of its [TreeNode] class for the methods that the two source
    files call. *)

Module Ete3.

(** A node carries [name], [dist] (branch length to its parent) and
    [children]; the parent pointer [up] is represented by the position of
    the node, see [path]. *)
#[local] Unset Elimination Schemes.
Inductive TreeNode : Type :=
  Node { name : string; dist : float; children : list TreeNode }.
#[local] Set Elimination Schemes.

(** A node of a tree is identified, as a Python object is by its identity,
    by its position: the child indices met on the way from the node up to
    the root.  The root is [[]] and [n.up] drops the head. *)
Definition path : Type := list nat.

Definition up (p : path) : option path :=
  match p with
  | [] => None
  | _ :: q => Some q
  end.

Fixpoint descend (n : TreeNode) (ix : list nat) : option TreeNode :=
  match ix with
  | [] => Some n
  | i :: ix' => c ← children n !! i; descend c ix'
  end.

Definition node_at (root : TreeNode) (p : path) : option TreeNode :=
  descend root (reverse p).

(** [n.is_leaf()] *)
Definition is_leaf (n : TreeNode) : bool :=
  match children n with
  | [] => true
  | _ => false
  end.

(** [n.get_leaves()]: the childless nodes below [n], in preorder. *)
Fixpoint get_leaves (n : TreeNode) : list TreeNode :=
  match n with
  | Node _ _ [] => [n]
  | Node _ _ cs => flat_map get_leaves cs
  end.

(** [n.get_leaf_names()] *)
Definition get_leaf_names (n : TreeNode) : list string :=
  name <$> get_leaves n.

(** [len(n)] is [len(n.get_leaves())]. *)
Definition len (n : TreeNode) : Z :=
  Z.of_nat (length (get_leaves n)).

(** [n.traverse("preorder", is_leaf_fn)]: a node is yielded, and its
    children are queued in front of the pending nodes unless [is_leaf_fn]
    holds of it. *)
Fixpoint traverse_preorder (is_leaf_fn : TreeNode → bool) (n : TreeNode)
    (p : path) {struct n} : list path :=
  p :: (if is_leaf_fn n then []
        else match n with
             | Node _ _ cs =>
                 (fix kids (cs : list TreeNode) (i : nat) : list path :=
                    match cs with
                    | [] => []
                    | c :: cs' =>
                        traverse_preorder is_leaf_fn c (i :: p) ++ kids cs' (S i)
                    end) cs 0%nat
             end).

(** The nodes at depth [d] below [n], left to right. *)
Fixpoint level (d : nat) (n : TreeNode) (p : path) : list (path * TreeNode) :=
  match d with
  | O => [(p, n)]
  | S d' => concat (imap (λ i c, level d' c (i :: p)) (children n))
  end.

Fixpoint height (n : TreeNode) : nat :=
  match n with
  | Node _ _ cs => S (foldr Nat.max 0%nat (height <$> cs))
  end.

(** [n.traverse()] with the default strategy, level order. *)
Definition traverse_levelorder (n : TreeNode) : list (path * TreeNode) :=
  concat ((λ d, level d n []) <$> seq 0 (height n)).

(** [n.search_nodes(name=s)] *)
Definition search_nodes (root : TreeNode) (s : string) : list (path * TreeNode) :=
  filter (λ pn, name pn.2 = s) (traverse_levelorder root).

(** [t & s]: the first node named [s]. *)
Definition tree_and (root : TreeNode) (s : string) : result path :=
  match search_nodes root s with
  | [] => Raise (TreeError "Node not found")
  | (p, _) :: _ => Ok p
  end.

(** [_translate_nodes(root, s)]: the node named [s], which must exist and
    be the only one of that name. *)
Definition translate_node (root : TreeNode) (s : string) : result path :=
  match search_nodes root s with
  | [] => Raise (ValueError "Node names not found")
  | [(p, _)] => Ok p
  | _ :: _ :: _ => Raise (TreeError "Ambiguous node name")
  end.

(** [root.get_common_ancestor(a, b)]: the deepest node above both. *)
Definition get_common_ancestor (a b : path) : path :=
  (max_suffix a b).2.

(** The inner loop of [get_distance]:
    [while current != ancestor: dist += current.dist; current = current.up] *)
Fixpoint climb (root : TreeNode) (current ancestor : path) (acc : float)
    : result float :=
  if decide (current = ancestor) then Ok acc
  else match current with
       | [] => Raise (AttributeError "'NoneType' object has no attribute 'dist'")
       | _ :: parent =>
           match node_at root current with
           | Some n => climb root parent ancestor (fadd acc (dist n))
           | None => Raise (AttributeError "no such node")
           end
       end.

(** [self.get_distance(target)] with [target] a node name: to [dist = 0.0]
    are added the branch lengths from [self] up to the common ancestor,
    then those from the target up to it. *)
Definition get_distance (root : TreeNode) (self : path) (target : string)
    : result float :=
  tp ← translate_node root target;
  let ancestor := get_common_ancestor tp self in
  d ← climb root self ancestor zero;
  climb root tp ancestor d.

(** [n.name = s] for the node at position [ix] (root first). *)
Fixpoint rename_at (n : TreeNode) (ix : list nat) (s : string) : TreeNode :=
  match ix with
  | [] => Node s (dist n) (children n)
  | i :: ix' =>
      match children n !! i with
      | Some c => Node (name n) (dist n) (<[i := rename_at c ix' s]> (children n))
      | None => n
      end
  end.

Definition set_name (root : TreeNode) (p : path) (s : string) : TreeNode :=
  rename_at root (reverse p) s.

(** [for ch in n: ch.detach()].  Iterating a node yields its leaves
    ([__iter__] is [iter_leaves]), and [detach] removes a node from the
    children of its parent: every leaf below [n] is removed, and [n]
    itself, when it is a leaf, is removed from its own parent ([None]). *)
Fixpoint detach_leaves (n : TreeNode) : option TreeNode :=
  match n with
  | Node _ _ [] => None
  | Node s d cs => Some (Node s d (omap detach_leaves cs))
  end.

(** [n.unroot()].  A node with two children loses the first of them that
    is not a leaf: [delete] appends the children of that child to those of
    [n] and removes the child.  Two leaves cannot be unrooted.  A node
    with another number of children is left as it is. *)
Definition unroot (n : TreeNode) : result TreeNode :=
  match children n with
  | [c0; c1] =>
      if negb (is_leaf c0) then Ok (Node (name n) (dist n) (c1 :: children c0))
      else if negb (is_leaf c1) then Ok (Node (name n) (dist n) (c0 :: children c1))
      else Raise (TreeError "Cannot unroot a tree with only two leaves")
  | _ => Ok n
  end.

End Ete3.

Import Ete3.

(** A position that names no node of the tree cannot arise from a Python
    reference; the model reports it as an error. *)
Definition the_node (root : TreeNode) (p : path) : result TreeNode :=
  match node_at root p with
  | Some n => Ok n
  | None => Raise (AttributeError "no such node")
  end.

(** [for x in xs: body] over the local state [st]. *)
Fixpoint for_each {S X : Type} (body : S → X → result S) (xs : list X) (st : S)
    : result S :=
  match xs with
  | [] => Ok st
  | x :: xs' => st' ← body st x; for_each body xs' st'
  end.

(** ** fasta_writer *)

Module FastaWriterModel.

(** Modelled from the spec: the module [fasta_writer] is imported by
    [split_large_tree.py] and is not among the sources.  [SeqLists] maps
    each sequence name of the input alignment to its aligned sequence, and
    [WriteSeqsToFasta(names, fn)] writes to [fn] the sequences of the names
    it is given. *)
Record FastaWriter : Type := { SeqLists : gmap string string }.

Definition WriteSeqsToFasta (fw : FastaWriter) (names : list string)
    : list (string * string) :=
  omap (λ g, (λ s, (g, s)) <$> SeqLists fw !! g) names.

End FastaWriterModel.

Import FastaWriterModel.

(** ** split_large_tree.py *)

Module SplitLargeTree.

Local Open Scope Z_scope.

(** The text of a subtree file: [n.write()], or
    ["(" + nwk[:-1] + ",SHOOTOUTGROUP_%s:%0.5f);"], which adds the outgroup
    leaf next to the subtree: its name and the text of its branch length. *)
Record nwk : Type := { nwk_tree : TreeNode; nwk_outgroup : option (string * string) }.

(** The files written under [subtrees/], by partition index. *)
Record files : Type := {
  sub : list (Z * nwk);
  msa_sub : list (Z * list (string * string));
  super : option TreeNode
}.

(** The local variables of [split_tree] that the loop updates; [outfile]
    is unbound until the first [with open(...) as outfile]. *)
Record locals : Type := {
  t : TreeNode;
  i_part : Z;
  n_profile : Z;
  sizes : list Z;
  outfile : option Z;
  fs : files
}.

(** [d_ngaps = {name:seq.count("-") for name, seq in fw.SeqLists.items()}],
    bound when [q_outgroup] holds and read in that case only. *)
Definition d_ngaps (fw : FastaWriter) : gmap string Z :=
  count "-" <$> SeqLists fw.

(** [stop_fn = lambda node : len(node) <= n_taxa] *)
Definition stop_fn (n_taxa : Z) (node : TreeNode) : bool :=
  bool_decide (len node ≤ n_taxa).

(** ["PART.%d-%d_genes" % (i_part, l)] *)
Definition part_name (i_part l : Z) : string :=
  "PART." +:+ pretty i_part +:+ "-" +:+ pretty l +:+ "_genes".

(** The float [9e99], whose value is this integer. *)
Definition f9e99 : Z :=
  8999999999999999948859130765266355329578537025198862586562510896759102769772101980841694466750283776.

(** Lines 78-83: the sister-clade gene with the fewest gaps. *)
Definition pick_outgroup (fw : FastaWriter) (root : TreeNode) (n : path)
    : result string :=
  match n with
  | [] => Raise (AttributeError "'NoneType' object has no attribute 'children'")
  | i :: parent =>
      n_up ← the_node root parent;
      let sisters := delete i (children n_up) in
      let sister_genes := flat_map get_leaf_names sisters in
      n_gaps ← mapM (λ g, if String.prefix "PART." g then Ok f9e99
                          else match d_ngaps fw !! g with
                               | Some c => Ok c
                               | None => Raise (KeyError g)
                               end) sister_genes;
      x ← min_list n_gaps;
      i ← index x n_gaps;
      match sister_genes !! i with
      | Some outgrp => Ok outgrp
      | None => Raise (ValueError "list index out of range")
      end
  end.

(** [n.write(outfile)]: the positional argument of [write] is [features],
    and [outfile] is by then a closed file, which cannot be iterated. *)
Definition write_features (n : TreeNode) (features : Z) : result nwk :=
  Raise (ValueError "I/O operation on closed file").

(** Lines 96-104, with the count of line 72: the subtree file and its
    alignment are written, the node is renamed and the counters move on. *)
Definition commit (st : locals) (p : path) (l : Z) (x : nwk)
    (msa : list (string * string)) : locals :=
  {| t := set_name (t st) p (part_name (i_part st) l);
     i_part := i_part st + 1;
     n_profile := n_profile st + Z.min 5 l;
     sizes := sizes st ++ [l];
     outfile := Some (i_part st);
     fs := {| sub := sub (fs st) ++ [(i_part st, x)];
              msa_sub := msa_sub (fs st) ++ [(i_part st, msa)];
              super := super (fs st) |} |}.

(** The text of line 91 for the subtree [n], the outgroup gene and the
    distance [d] between them:
    ["SHOOTOUTGROUP_%s:%0.5f" % (outgrp, d-n.dist)]. *)
Definition with_outgroup (n : TreeNode) (outgrp : string) (d : float) : nwk :=
  {| nwk_tree := n;
     nwk_outgroup := Some ("SHOOTOUTGROUP_" +:+ outgrp,
                           format_0_5f (fsub d (dist n))) |}.

(** A float that prints with digits: an infinite or undefined one prints
    as [inf] or [nan]. *)
Definition prints_digits (x : float) : bool :=
  match x with
  | S754_zero _ | S754_finite _ _ _ => true
  | _ => false
  end.

(** The branch lengths in the text of [n.write()] for a node that has a
    parent: its own and those of the nodes below it. *)
Fixpoint lengths_below (n : TreeNode) : list float :=
  match n with
  | Node _ d cs => d :: flat_map lengths_below cs
  end.

(** Line 100, [t_sub = ete3.Tree(nwk)], for the text of line 91 with the
    outgroup on a branch of length [diff]: the parser takes a branch length
    only when it is made of digits, and raises otherwise.  (Names and
    support values, which the model does not carry, are taken to read
    back.)  Lines 101-103 unroot [t_sub] when it has three leaves or more,
    for a file of its own that nothing reads: the root of [t_sub] has two
    children, the subtree and the outgroup leaf, and three leaves mean that
    the subtree is not a leaf, so [unroot] deletes it and does not raise
    (see [unroot_inner_first]). *)
Definition reread (n : TreeNode) (diff : float) : result unit :=
  if forallb prints_digits (diff :: lengths_below n) then Ok tt
  else Raise (NewickError "Unexpected newick format").

(** The body of the loop of lines 64-104, for the node [p] yielded by the
    traversal.  The text is read back (line 100) after the files have been
    written and the node renamed; an exception there leaves the loop all
    the same, so the check is made before these are recorded. *)
Definition body (fw : FastaWriter) (n_taxa : Z) (q_outgroup : bool)
    (st : locals) (p : path) : result locals :=
  n ← the_node (t st) p;
  let l := len n in
  if bool_decide (l ≤ n_taxa) then
    '(x, msa) ←
      (if negb q_outgroup then
         f ← read_local "outfile" (outfile st);
         x ← write_features n f;
         Ok (x, WriteSeqsToFasta fw (get_leaf_names n))
       else
         outgrp ← pick_outgroup fw (t st) p;
         d ← get_distance (t st) p outgrp;
         _ ← assert (fgt d (dist n));
         let x := with_outgroup n outgrp d in
         let genes := get_leaf_names n in
         let translate : gmap string string :=
           <[outgrp := "SHOOTOUTGROUP_" +:+ outgrp]>
             (list_to_map ((λ g, (g, g)) <$> genes)) in
         let msa := WriteSeqsToFasta fw genes in
         _ ← reread n (fsub d (dist n));
         Ok (x, msa));
    Ok (commit st p l x msa)
  else Ok st.

(** Lines 106-109.  The traversal yields [n]; the loop body then runs, and
    only after it does the traversal test [stop_fn] on [n] and queue the
    children that [n] has by then.  The result is [None] when [n] has been
    removed from the children of its parent.  [fuel] bounds the depth
    reached; the height of the tree is enough. *)
Fixpoint remove_subtrees (fuel : nat) (n_taxa : Z) (n : TreeNode)
    : result (option TreeNode) :=
  match fuel with
  | O => Raise OutOfFuel
  | S fuel' =>
      match (if String.prefix "PART." (name n) then detach_leaves n else Some n) with
      | None => Ok None
      | Some m =>
          if stop_fn n_taxa m then Ok (Some m)
          else cs ← mapM (remove_subtrees fuel' n_taxa) (children m);
               Ok (Some (Node (name m) (dist m) (omap id cs)))
      end
  end.

(** What a call leaves behind: the value returned and the files written. *)
Record outcome : Type := { returned : Z; written : files }.

(** The locals when the loop of line 64 is entered. *)
Definition locals0 (t0 : TreeNode) : locals :=
  {| t := t0; i_part := 0; n_profile := 0; sizes := []; outfile := None;
     fs := {| sub := []; msa_sub := []; super := None |} |}.

(** [split_tree(fn_tree, fn_msa, n_taxa, q_outgroup)], with [t0] the tree
    read from [fn_tree] and [fw] the alignment read from [fn_msa].  The
    first loop renames nodes and leaves the shape of the tree alone, so
    its traversal yields the positions of the traversal of [t0].  When the
    root has detached itself in the second pass nothing changes, as it has
    no parent.  Line 112 unroots the supertree after it has been written:
    the call raises there when [unroot] does; the unrooted supertree goes
    to a file of its own that nothing reads, and is not recorded. *)
Definition split_tree (t0 : TreeNode) (fw : FastaWriter) (n_taxa : Z)
    (q_outgroup : bool) : result outcome :=
  if bool_decide (len t0 ≤ n_taxa) then
    Ok {| returned := Z.min 5 (len t0);
          written := {| sub := [(0, {| nwk_tree := t0; nwk_outgroup := None |})];
                        msa_sub := [];
                        super := None |} |}
  else
    st ← for_each (body fw n_taxa q_outgroup)
           (traverse_preorder (stop_fn n_taxa) t0 []) (locals0 t0);
    r ← remove_subtrees (height (t st)) n_taxa (t st);
    let sup := default (t st) r in
    _ ← unroot sup;
    Ok {| returned := n_profile st;
          written := {| sub := sub (fs st);
                        msa_sub := msa_sub (fs st);
                        super := Some sup |} |}.

End SplitLargeTree.

Import SplitLargeTree.

(** ** shoot/__main__.py *)

Module Shoot.

Local Open Scope Z_scope.

(** ["_".join(name.split("_")[:2])] *)
Definition gene_to_species (name : string) : string :=
  String.concat "_" (take 2 (split "_" name)).

(** The local variables of the loop of lines 86-89; [node_prev] and
    [n_taxa_prev] are unbound until the loop body has run once. *)
Record ascent : Type := {
  node : path;
  node_prev : option path;
  n_taxa_prev : option Z
}.

(** Lines 86-89:
    [while len(node) < nU: node_prev = node; n_taxa_prev = len(node); node = node.up] *)
Fixpoint ascend (t : TreeNode) (nU : Z) (node : path)
    (node_prev : option path) (n_taxa_prev : option Z) {struct node}
    : result ascent :=
  match the_node t node with
  | Raise e => Raise e
  | Ok n =>
      if bool_decide (len n < nU) then
        match node with
        | [] => Raise (TypeError "object of type 'NoneType' has no len()")
        | _ :: parent => ascend t nU parent (Some node) (Some (len n))
        end
      else Ok {| node := node; node_prev := node_prev; n_taxa_prev := n_taxa_prev |}
  end.

(** Line 92:
    [node = node_prev if (nL is None or n_taxa_prev >= nL) else node] *)
Definition choose (a : ascent) (nL : option Z) : result path :=
  match nL with
  | None => read_local "node_prev" (node_prev a)
  | Some l =>
      k ← read_local "n_taxa_prev" (n_taxa_prev a);
      if bool_decide (l ≤ k) then read_local "node_prev" (node_prev a)
      else Ok (node a)
  end.

(** Lines 81-95 of [main]: the node whose text replaces the tree file, or
    [None] when the file is left as it is. *)
Definition narrow_node (t : TreeNode) (query_gene : string) (nU nL : option Z)
    : result (option path) :=
  match nU with
  | None => Ok None
  | Some u =>
      if bool_decide (u < len t) then
        leaf ← tree_and t query_gene;
        a ← ascend t u leaf None None;
        chosen ← choose a nL;
        Ok (Some chosen)
      else Ok None
  end.

Definition narrow (t : TreeNode) (query_gene : string) (nU nL : option Z)
    : result (option TreeNode) :=
  r ← narrow_node t query_gene nU nL;
  match r with
  | None => Ok None
  | Some p => n ← the_node t p; Ok (Some n)
  end.

(** [add_orthologs_to_file]: the rows handed to the csv writer. *)
Definition add_orthologs_to_file (genes : list string) (overlap : gset string)
    : list (string * string) :=
  let species_to_genes : gmap string (list string) :=
    foldl (λ m g, <[gene_to_species g := default [] (m !! gene_to_species g) ++ [g]]> m)
          ∅ genes in
  omap (λ sp, if bool_decide (sp ∈ overlap) then None
              else Some (sp, String.concat ", " (default [] (species_to_genes !! sp))))
       (sorted (elements (dom species_to_genes))).

(** Line 168 *)
Definition emit (o m : Z) : bool :=
  bool_decide (o = 0) || (bool_decide (4 ≤ m) && bool_decide (o = 1))
  || (bool_decide (9 ≤ m) && bool_decide (o = 2)).

(** One round of the loop of lines 160-171, at the ancestor reached from
    its child of index [i]: the accumulated species before the round, the
    genes and species of the other children, and the rows written ([None]
    when [add_orthologs_to_file] is not called). *)
Record visit : Type := {
  species_query_branch : gset string;
  genes_other : list string;
  species_other : gset string;
  rows : option (list (string * string))
}.

Definition visit_ancestor (n : TreeNode) (i : nat) (seen : gset string) : visit :=
  let n_other := delete i (children n) in
  let genes_other := flat_map get_leaf_names n_other in
  let species_other : gset string := list_to_set (gene_to_species <$> genes_other) in
  let overlap := seen ∩ species_other in
  let o := Z.of_nat (size overlap) in
  let m := Z.min (Z.of_nat (size species_other)) (Z.of_nat (size seen)) in
  {| species_query_branch := seen;
     genes_other := genes_other;
     species_other := species_other;
     rows := if emit o m then Some (add_orthologs_to_file genes_other overlap)
             else None |}.

(** Lines 160-171: [while n.up is not None: n = n.up; ...] *)
Fixpoint ortholog_loop (t : TreeNode) (n : path) (seen : gset string)
    : result (list visit) :=
  match n with
  | [] => Ok []
  | i :: parent =>
      match the_node t parent with
      | Raise e => Raise e
      | Ok n_up =>
          let v := visit_ancestor n_up i seen in
          match ortholog_loop t parent (seen ∪ species_other v) with
          | Raise e => Raise e
          | Ok vs => Ok (v :: vs)
          end
      end
  end.

(** [write_orthologs]: the rounds of the loop, and the rows of the file. *)
Definition ortholog_visits (t : TreeNode) (gene_name : string) : result (list visit) :=
  n ← tree_and t gene_name;
  ortholog_loop t n ∅.

Definition write_orthologs (t : TreeNode) (gene_name : string)
    : result (list (string * string)) :=
  vs ← ortholog_visits t gene_name;
  Ok (("Species", "Orthologs") :: concat ((λ v, default [] (rows v)) <$> vs)).

End Shoot.

Import Shoot.

(** * The query file: [main]'s format check and [clean_fasta] (__main__.py)

    A Python [str] is a sequence of code points, and [rstrip] and the
    regular expressions act on code points, so the text of a file is a
    list of code points here.  A disk maps a file name to the text stored
    under it, already decoded.  Opening a file for reading translates
    every line ending to a line feed; writing stores the text as it is
    (the line separator of a POSIX system).  Only a missing file and a
    missing line fail; other failures of the operating system are not
    modelled. *)

Module InputFasta.

Definition text : Type := list N.
Definition disk : Type := gmap string text.

Inductive io_exn : Type :=
| FileNotFoundError (fn : string)
| StopIteration.

Inductive io (A : Type) : Type :=
| Returns (a : A)
| Raises (e : io_exn).

Arguments Returns {A} a.
Arguments Raises {A} e.

(** The line feed, [">"] and ["_"]. *)
Definition LF : N := 10.
Definition CR : N := 13.
Definition GT : N := 62.
Definition UNDERSCORE : N := 95.

(** Universal newlines on input: ["\r\n"] and ["\r"] are read as ["\n"]. *)
Fixpoint universal_newlines (s : text) : text :=
  match s with
  | [] => []
  | c :: s' =>
      if (c =? CR)%N then
        LF :: match s' with
              | c' :: s'' =>
                  if (c' =? LF)%N then universal_newlines s'' else universal_newlines s'
              | [] => []
              end
      else c :: universal_newlines s'
  end.

(** Iterating a file object: the lines, each with its line feed; the last
    line may lack one. *)
Fixpoint readlines (s : text) : list text :=
  match s with
  | [] => []
  | c :: s' =>
      if (c =? LF)%N then [c] :: readlines s'
      else match readlines s' with
           | [] => [[c]]
           | l :: ls => (c :: l) :: ls
           end
  end.

(** [open(fn, 'r')] followed by iteration. *)
Definition open_lines (d : disk) (fn : string) : io (list text) :=
  match d !! fn with
  | None => Raises (FileNotFoundError fn)
  | Some content => Returns (readlines (universal_newlines content))
  end.

(** [str.isspace] of one character. *)
Definition isspace (c : N) : bool :=
  ((9 <=? c) && (c <=? 13) || (28 <=? c) && (c <=? 32)
   || (c =? 133) || (c =? 160) || (c =? 5760)
   || (8192 <=? c) && (c <=? 8202)
   || (c =? 8232) || (c =? 8233) || (c =? 8239) || (c =? 8287) || (c =? 12288))%N.

(** [s.rstrip()] *)
Fixpoint rstrip (s : text) : text :=
  match s with
  | [] => []
  | c :: s' =>
      match rstrip s' with
      | [] => if isspace c then [] else [c]
      | r => c :: r
      end
  end.

(** [gene_name_disallowed_chars_re = '[^A-Za-z0-9_\\-.]']: the characters
    outside the class. *)
Definition allowed (c : N) : bool :=
  ((65 <=? c) && (c <=? 90) || (97 <=? c) && (c <=? 122) || (48 <=? c) && (c <=? 57)
   || (c =? 95) || (c =? 45) || (c =? 46))%N.

(** [re.sub(gene_name_disallowed_chars_re, '_', name)] *)
Definition re_sub (name : text) : text :=
  (λ c, if allowed c then c else UNDERSCORE) <$> name.

(** [re.match("^>.", acc)]: the dot matches any character but a line feed. *)
Definition match_header (acc : text) : bool :=
  match acc with
  | c0 :: c1 :: _ => (c0 =? GT)%N && negb (c1 =? LF)%N
  | _ => false
  end.

Definition is_letter (c : N) : bool :=
  ((65 <=? c) && (c <=? 90) || (97 <=? c) && (c <=? 122))%N.

(** ["[a-zA-Z]*$"] from the current position: [$] matches at the end, or
    before a line feed that ends the string. *)
Fixpoint letters_to_end (l : text) : bool :=
  match l with
  | [] => true
  | c :: l' =>
      if is_letter c then letters_to_end l'
      else (c =? LF)%N && match l' with [] => true | _ => false end
  end.

(** [re.match("^[a-zA-Z]+$", l)] *)
Definition match_sequence (l : text) : bool :=
  match l with
  | [] => false
  | c :: l' => is_letter c && letters_to_end l'
  end.

(** Lines 37-44 of [main]: the value of [ok].  The second line is read
    only when the first one matches ([and] evaluates its right operand
    only then). *)
Definition format_ok (d : disk) (infn : string) : io bool :=
  match open_lines d infn with
  | Raises e => Raises e
  | Returns [] => Raises StopIteration
  | Returns (acc :: rest) =>
      if match_header acc then
        match rest with
        | [] => Raises StopIteration
        | l :: _ => Returns (match_sequence l)
        end
      else Returns false
  end.

(** [clean_fasta]: the file name returned and the disk it leaves. *)
Definition clean_fasta (d : disk) (infn : string) : io (string * disk) :=
  match open_lines d infn with
  | Raises e => Raises e
  | Returns [] => Raises StopIteration
  | Returns (acc :: rest) =>
      let name := drop 1 (rstrip acc) in
      let name_cleaned := re_sub name in
      if decide (name = name_cleaned) then Returns (infn, d)
      else
        let fn_for_use := infn +:+ ".sh.cleaned" in
        Returns (fn_for_use,
                 <[fn_for_use := (GT :: name_cleaned ++ [LF]) ++ concat rest]> d)
  end.

End InputFasta.

Import InputFasta.

(** ** Sample trees *)

Module Samples.

(** A leaf and an unnamed inner node, on a branch of integer length. *)
Definition leaf (s : string) (d : Z) : TreeNode := Node s (of_Z d) [].
Definition inner (d : Z) (cs : list TreeNode) : TreeNode := Node "" (of_Z d) cs.

(** [((A:1,B:1):1,(C:1,D:1):1);] *)
Definition abcd : TreeNode :=
  inner 0 [inner 1 [leaf "A" 1; leaf "B" 1]; inner 1 [leaf "C" 1; leaf "D" 1]].

Definition fasta (l : list (string * string)) : FastaWriter :=
  {| SeqLists := list_to_map l |}.

Definition abcd_fa : FastaWriter :=
  fasta [("A", "MK-L"); ("B", "MKAL"); ("C", "M--L"); ("D", "MKA-")].

(** Eight genes in two clades of four. *)
Definition t8 : TreeNode :=
  inner 0 [inner 1 [inner 1 [leaf "A" 1; leaf "B" 1]; inner 1 [leaf "C" 1; leaf "D" 1]];
           inner 1 [inner 1 [leaf "E" 1; leaf "F" 1]; inner 1 [leaf "G" 1; leaf "H" 1]]].

Definition t8_fa : FastaWriter :=
  fasta [("A", "MK-L"); ("B", "MKAL"); ("C", "M--L"); ("D", "MKA-");
         ("E", "MK-L"); ("F", "MKAL"); ("G", "M--L"); ("H", "MKA-")].

(** [(A:1,(B:1,C:1):1);] *)
Definition a_bc : TreeNode :=
  inner 0 [leaf "A" 1; inner 1 [leaf "B" 1; leaf "C" 1]].

(** Three clades of 3, 7 and 5 genes under the root. *)
Definition clade (prefix : string) (k : nat) : TreeNode :=
  inner 1 ((λ i, leaf (prefix +:+ pretty i) 1) <$> seq 0 k).

Definition t357 : TreeNode :=
  inner 0 [clade "a" 3; clade "b" 7; clade "c" 5].

Definition t357_fa : FastaWriter :=
  fasta ((λ g, (g, "MK-L")) <$> get_leaf_names t357).

(** The query next to a clade of four species, and a sister clade that
    shares one species with it: four species, then three. *)
Definition near : TreeNode :=
  inner 1 [leaf "q_q_1" 1;
           inner 1 [leaf "a_a_1" 1; leaf "b_b_1" 1; leaf "c_c_1" 1; leaf "d_d_1" 1]].

Definition sister4 : TreeNode :=
  inner 0 [near; inner 1 [leaf "a_a_2" 1; leaf "e_e_1" 1; leaf "f_f_1" 1; leaf "g_g_1" 1]].

Definition sister3 : TreeNode :=
  inner 0 [near; inner 1 [leaf "a_a_2" 1; leaf "e_e_1" 1; leaf "f_f_1" 1]].

(** The code points of an ASCII string. *)
Definition encode (s : string) : text :=
  (λ a, N_of_ascii a) <$> list_ascii_of_string s.

Definition NL : string := String (ascii_of_N 10) EmptyString.

(** [((A:1,B:1):1,(C:0,D:0):0);]: a sister clade on branches of length 0. *)
Definition flat : TreeNode :=
  inner 0 [inner 1 [leaf "A" 1; leaf "B" 1]; inner 0 [leaf "C" 0; leaf "D" 0]].

(** [float("0.000001")] and [float("1e-17")]: the doubles nearest to these
    decimals, as correctly rounded quotients of integers that are doubles. *)
Definition millionth : float := fdiv (of_Z 1) (of_Z 1000000).
Definition e17 : float := fdiv (of_Z 1) (of_Z 100000000000000000).

(** [((A:1,B:1):1,D:0.000001);] *)
Definition close : TreeNode :=
  inner 0 [inner 1 [leaf "A" 1; leaf "B" 1]; Node "D" millionth []].

(** [((A:1,B:1):1,(C:1e-17,D:1e-17):1e-17);]: every branch is positive. *)
Definition faint : TreeNode :=
  inner 0 [inner 1 [leaf "A" 1; leaf "B" 1];
           Node "" e17 [Node "C" e17 []; Node "D" e17 []]].

(** [(A:1,B:1);] *)
Definition ab : TreeNode := inner 0 [leaf "A" 1; leaf "B" 1].

(** The query next to one gene, and a sister clade of four species that
    shares one species with it. *)
Definition sparse : TreeNode :=
  inner 0 [inner 1 [leaf "q_q_1" 1; leaf "a_a_1" 1];
           inner 1 [leaf "a_a_2" 1; leaf "e_e_1" 1; leaf "f_f_1" 1; leaf "g_g_1" 1]].

(** A query whose accession has characters outside the allowed class. *)
Definition query_disk : disk :=
  {[ "q.fa" := encode (">sp|P1|X desc" +:+ NL +:+ "MKAL" +:+ NL +:+ "MKV" +:+ NL) ]}.

End Samples.

Import Samples.

(** ** Notions used to state the properties *)

Module Notions.

(** The children part of [traverse_preorder], from child index [i] on. *)
Fixpoint traverse_kids (is_leaf_fn : TreeNode → bool) (cs : list TreeNode)
    (i : nat) (p : path) : list path :=
  match cs with
  | [] => []
  | c :: cs' => traverse_preorder is_leaf_fn c (i :: p) ++ traverse_kids is_leaf_fn cs' (S i) p
  end.

(** The nodes that [traverse_preorder] yields, as subtrees. *)
Fixpoint traverse_nodes (is_leaf_fn : TreeNode → bool) (n : TreeNode)
    : list TreeNode :=
  n :: (if is_leaf_fn n then []
        else match n with
             | Node _ _ cs => flat_map (traverse_nodes is_leaf_fn) cs
             end).

(** No position of the list is at or above an earlier one. *)
Fixpoint ordered (l : list path) : Prop :=
  match l with
  | [] => True
  | p :: l' => Forall (λ q, ¬ q `suffix_of` p) l' ∧ ordered l'
  end.

(** The subtrees written to the subtree files, in order. *)
Definition subtrees (f : files) : list TreeNode :=
  (λ x, nwk_tree x.2) <$> sub f.

(** [min(5, l)] summed over the subtrees. *)
Definition profiles (ns : list TreeNode) : Z :=
  foldr Z.add 0%Z ((λ n, Z.min 5 (len n)) <$> ns).

(** A subtree file with an outgroup leaf, named after a gene that is not
    a leaf of the subtree. *)
Definition outgroup_apart (x : Z * nwk) : Prop :=
  ∃ outgrp l,
    nwk_outgroup x.2 = Some ("SHOOTOUTGROUP_" +:+ outgrp, l) ∧
    outgrp ∉ get_leaf_names (nwk_tree x.2).

(** The branch lengths of the first [k] nodes on the way up from the
    position [p], the node at [p] first. *)
Fixpoint branches_up (root : TreeNode) (p : path) (k : nat) {struct k}
    : list float :=
  match k, p with
  | S k', _ :: parent =>
      match node_at root p with
      | Some n => dist n :: branches_up root parent k'
      | None => []
      end
  | _, _ => []
  end.

(** The species of a list of genes. *)
Definition species_of (genes : list string) : gset string :=
  list_to_set (gene_to_species <$> genes).

(** The genes below the siblings of the [k]-th node on the way up from
    [query], the sister clade met at the [k]-th ancestor. *)
Definition sister_genes (t : TreeNode) (query : path) (k : nat) : list string :=
  match drop k query with
  | i :: parent =>
      match node_at t parent with
      | Some n_up => flat_map get_leaf_names (delete i (children n_up))
      | None => []
      end
  | [] => []
  end.

(** The species of the sister clades met below the [k]-th ancestor. *)
Definition accumulated (t : TreeNode) (query : path) (k : nat) : gset string :=
  ⋃ ((λ j, species_of (sister_genes t query j)) <$> seq 0 k).

(** The condition of line 168, on the species sets of a round. *)
Definition tolerated (seen other : gset string) : Prop :=
  let o := size (seen ∩ other) in
  let m := Nat.min (size other) (size seen) in
  o = 0%nat ∨ (4 ≤ m ∧ o = 1)%nat ∨ (9 ≤ m ∧ o = 2)%nat.

(** The alignment file that goes with a subtree file: same index, the
    sequences of the subtree's own leaves. *)
Definition alignment_of (fw : FastaWriter) (f : Z * nwk)
    : Z * list (string * string) :=
  (f.1, WriteSeqsToFasta fw (get_leaf_names (nwk_tree f.2))).

(** No node of the tree has a name that marks a partition. *)
Fixpoint part_free (n : TreeNode) : bool :=
  match n with
  | Node s _ cs => negb (String.prefix "PART." s) && forallb part_free cs
  end.

End Notions.

Import Notions.

(** * Properties *)

(** ** Decomposition at concrete inputs *)

(** C1.  With outgroup preservation on, the alignment file of a subtree
    holds the sequences of the subtree's own leaves and nothing else: for
    eight genes in two clades of four and target 4, the first subtree gets
    [F] as its outgroup, and its alignment file holds [A] to [D] only; the
    second gets [B], and its file holds [E] to [H] only. *)
Theorem C1_alignment_lacks_outgroup :
  ∃ r,
    split_tree t8 t8_fa 4 true = Ok r ∧
    returned r = 8%Z ∧
    (λ f, nwk_outgroup f.2) <$> sub (written r)
      = [Some ("SHOOTOUTGROUP_F", "3.00000"); Some ("SHOOTOUTGROUP_B", "3.00000")] ∧
    msa_sub (written r)
      = [(0%Z, [("A", "MK-L"); ("B", "MKAL"); ("C", "M--L"); ("D", "MKA-")]);
         (1%Z, [("E", "MK-L"); ("F", "MKAL"); ("G", "M--L"); ("H", "MKA-")])].
Proof. eexists. split; [vm_compute; reflexivity |]. repeat split; reflexivity. Qed.

(** C2.  With outgroup preservation off, the first boundary node reads the
    local [outfile] before any [with] statement has bound it: the
    decomposition of [((A,B),(C,D))] with target 2 raises and writes no
    subtree. *)
Theorem C2_outgroup_off_raises :
  split_tree abcd abcd_fa 2 false = Raise (UnboundLocalError "outfile").
Proof. vm_compute. reflexivity. Qed.

(** C3.  The second pass detaches the leaves below a partition node, not
    its children: for eight genes in two clades of four and target 4, the
    node [PART.0-4_genes] of the supertree keeps two children, the emptied
    inner nodes. *)
Theorem C3_partition_keeps_inner_nodes :
  ∃ r sup n,
    split_tree t8 t8_fa 4 true = Ok r ∧
    super (written r) = Some sup ∧
    node_at sup [0%nat] = Some n ∧
    name n = "PART.0-4_genes" ∧
    children n = [inner 1 []; inner 1 []].
Proof.
  eexists _, _, _. split; [vm_compute; reflexivity |].
  repeat split; reflexivity.
Qed.

(** The same loop on a boundary node that is a single leaf: the leaf is
    detached from its own parent, so the supertree of [(A,(B,C))] with target 2
    holds [PART.1-2_genes] only. *)
Lemma partition_leaf_is_lost :
  ∃ r sup,
    split_tree a_bc t8_fa 2 true = Ok r ∧
    super (written r) = Some sup ∧
    name <$> children sup = ["PART.1-2_genes"].
Proof. eexists _, _. split; [vm_compute; reflexivity |]. split; reflexivity. Qed.

(** C9.  A partition leaf is chosen as outgroup when the sister clade has
    no other leaf: in [(A,(B,C))] with target 2, [A] is renamed
    [PART.0-1_genes] before [(B,C)] is reached, and [(B,C)] gets it as
    outgroup. *)
Theorem C9_partition_leaf_chosen :
  ∃ r,
    split_tree a_bc t8_fa 2 true = Ok r ∧
    (λ f, nwk_outgroup f.2) <$> sub (written r)
      = [Some ("SHOOTOUTGROUP_B", "2.00000");
         Some ("SHOOTOUTGROUP_PART.0-1_genes", "1.00000")].
Proof. eexists. split; [vm_compute; reflexivity | reflexivity]. Qed.

(** C7.  With an upper bound of 1 the loop body never runs and line 92
    reads a local that was never assigned, with or without a lower
    bound. *)
Theorem C7_upper_bound_one_raises :
  narrow abcd "A" (Some 1%Z) None = Raise (UnboundLocalError "node_prev") ∧
  narrow abcd "A" (Some 1%Z) (Some 1%Z) = Raise (UnboundLocalError "n_taxa_prev").
Proof. split; vm_compute; reflexivity. Qed.

(** ** The error monad and the tree *)

Lemma bind_Ok {A B : Type} (r : result A) (k : A → result B) (b : B) :
  r ≫= k = Ok b → ∃ a, r = Ok a ∧ k a = Ok b.
Proof. destruct r as [a|e]; [eauto | discriminate]. Qed.

Lemma Ok_inj {A : Type} (a b : A) : Ok a = Ok b → a = b.
Proof. by intros [= ->]. Qed.

Lemma TreeNode_ind (P : TreeNode → Prop) :
  (∀ s d cs, Forall P cs → P (Node s d cs)) → ∀ n, P n.
Proof.
  intros step. fix IH 1. intros [s d cs]. apply step.
  induction cs as [|c cs IHcs]; constructor; [apply IH | exact IHcs].
Qed.

Lemma get_leaves_node s d c cs :
  get_leaves (Node s d (c :: cs)) = flat_map get_leaves (c :: cs).
Proof. reflexivity. Qed.

Lemma len_pos n : (1 ≤ len n)%Z.
Proof.
  unfold len. induction n as [s d cs IH] using TreeNode_ind.
  destruct cs as [|c cs]; [simpl; lia |].
  rewrite get_leaves_node. simpl flat_map. rewrite length_app.
  inversion IH; subst. lia.
Qed.

Lemma len_leaf n : children n = [] → len n = 1%Z.
Proof. destruct n as [s d cs]; simpl; intros ->; reflexivity. Qed.

Lemma descend_app n ix jx :
  descend n (ix ++ jx) = descend n ix ≫= λ m, descend m jx.
Proof.
  revert n. induction ix as [|i ix IH]; intros n; simpl; [reflexivity |].
  destruct (children n !! i) as [c|]; simpl; [apply IH | reflexivity].
Qed.

Lemma node_at_nil root : node_at root [] = Some root.
Proof. reflexivity. Qed.

Lemma node_at_cons root i p :
  node_at root (i :: p) = node_at root p ≫= λ n, children n !! i.
Proof.
  unfold node_at. rewrite reverse_cons, descend_app.
  destruct (descend root (reverse p)) as [n|]; simpl; [| reflexivity].
  destruct (children n !! i); reflexivity.
Qed.

Lemma node_at_app root q p :
  node_at root (q ++ p) = node_at root p ≫= λ n, node_at n q.
Proof. unfold node_at. rewrite reverse_app. apply descend_app. Qed.

Lemma node_at_parent root i p n :
  node_at root (i :: p) = Some n → ∃ m, node_at root p = Some m ∧ children m !! i = Some n.
Proof.
  rewrite node_at_cons. destruct (node_at root p) as [m|]; simpl; [eauto | discriminate].
Qed.

Lemma the_node_Ok root p n : the_node root p = Ok n ↔ node_at root p = Some n.
Proof.
  unfold the_node. destruct (node_at root p); split; intros H; inversion H; reflexivity.
Qed.

(** The positions found by a level-order search name nodes of the tree. *)
Lemma level_valid root d : ∀ n p q m,
  node_at root p = Some n → (q, m) ∈ level d n p → node_at root q = Some m.
Proof.
  induction d as [|d IH]; intros n p q m Hp Hin; simpl in Hin.
  - apply list_elem_of_singleton in Hin. congruence.
  - apply list_elem_of_In, in_concat in Hin as (l & Hl & Hq).
    apply list_elem_of_In in Hl, Hq.
    apply elem_of_lookup_imap in Hl as (i & c & -> & Hc).
    eapply IH; [| exact Hq]. rewrite node_at_cons, Hp. exact Hc.
Qed.

Lemma search_nodes_valid root s q m :
  (q, m) ∈ search_nodes root s → node_at root q = Some m ∧ name m = s.
Proof.
  unfold search_nodes, traverse_levelorder. intros Hin.
  apply list_elem_of_filter in Hin as [Hname Hin]. split; [| exact Hname].
  apply list_elem_of_In, in_concat in Hin as (l & Hl & Hq).
  apply list_elem_of_In in Hl, Hq.
  apply list_elem_of_fmap in Hl as (d & -> & _).
  eapply level_valid; [apply node_at_nil | exact Hq].
Qed.

Lemma tree_and_valid root s p :
  tree_and root s = Ok p → ∃ n, node_at root p = Some n ∧ name n = s.
Proof.
  unfold tree_and. destruct (search_nodes root s) as [|[q m] l] eqn:E; [discriminate |].
  intros [= <-]. exists m. apply search_nodes_valid. rewrite E. left.
Qed.

Lemma descend_leaf m ix l :
  descend m ix = Some l → children l = [] → l ∈ get_leaves m.
Proof.
  revert m. induction ix as [|i ix IH]; intros m Hd Hl; simpl in Hd.
  - injection Hd as ->. destruct l as [s d cs]; simpl in Hl; subst. simpl. left.
  - destruct (children m !! i) as [c|] eqn:Hc; [| discriminate]. simpl in Hd.
    destruct m as [s d [|c0 cs]]; [discriminate |].
    rewrite get_leaves_node. apply list_elem_of_In, in_flat_map.
    exists c. split; [apply list_elem_of_In; eapply list_elem_of_lookup_2; exact Hc |].
    apply list_elem_of_In. apply IH; assumption.
Qed.

(** ** Scope narrowing *)

Lemma ascend_eq t nU node prev nprev :
  ascend t nU node prev nprev =
  match the_node t node with
  | Raise e => Raise e
  | Ok n =>
      if bool_decide (len n < nU)%Z then
        match node with
        | [] => Raise (TypeError "object of type 'NoneType' has no len()")
        | _ :: parent => ascend t nU parent (Some node) (Some (len n))
        end
      else Ok {| node := node; node_prev := prev; n_taxa_prev := nprev |}
  end.
Proof. destruct node; reflexivity. Qed.

(** The loop of lines 86-89 stops at a node of the tree, at or above the
    node it started from, with at least [nU] leaves; and when its body has
    run, [node_prev] is the child of that node on the way up, with fewer
    than [nU] leaves, counted in [n_taxa_prev]. *)
Lemma ascend_spec t nU :
  (nU < len t)%Z → ∀ start prev nprev n0,
  node_at t start = Some n0 →
  ∃ a m, ascend t nU start prev nprev = Ok a ∧
    node a `suffix_of` start ∧ node_at t (node a) = Some m ∧ (nU ≤ len m)%Z ∧
    ((node a = start ∧ node_prev a = prev ∧ n_taxa_prev a = nprev) ∨
     (∃ i m', node_prev a = Some (i :: node a) ∧ (i :: node a) `suffix_of` start ∧
        node_at t (i :: node a) = Some m' ∧ n_taxa_prev a = Some (len m') ∧
        (len m' < nU)%Z)).
Proof.
  intros Hbig start. induction start as [|i parent IH]; intros prev nprev n0 Hn0;
    rewrite ascend_eq; rewrite (proj2 (the_node_Ok _ _ _) Hn0); case_bool_decide as Hlt.
  - rewrite node_at_nil in Hn0. injection Hn0 as <-. lia.
  - eexists _, n0. split; [reflexivity |]. simpl. repeat split; auto; lia.
  - destruct (node_at_parent _ _ _ _ Hn0) as (m & Hm & _).
    destruct (IH (Some (i :: parent)) (Some (len n0)) m Hm)
      as (a & m2 & Ha & Hsuf & Hm2 & Hge & Hcase).
    exists a, m2. split; [exact Ha |]. split; [by apply suffix_cons_r |].
    split; [exact Hm2 |]. split; [exact Hge |]. right.
    destruct Hcase as [(Hnode & Hprev & Hk) | (j & m' & Hprev & Hsuf' & Hm' & Hk & Hlt')].
    + exists i, n0. rewrite Hnode. repeat split; auto.
    + exists j, m'. repeat split; auto. by apply suffix_cons_r.
  - eexists _, n0. split; [reflexivity |]. simpl. repeat split; auto; lia.
Qed.

(** The choice of line 92, for an upper bound of at least 2: the node
    chosen is at or above the query leaf; it is [node_prev], with fewer
    leaves than the upper bound, unless a lower bound is set and
    [n_taxa_prev] is below it, and then it is [node]. *)
Lemma narrow_choice t query_gene nU nL leaf n :
  tree_and t query_gene = Ok leaf → node_at t leaf = Some n → children n = [] →
  (nU < len t)%Z → (2 ≤ nU)%Z →
  ∃ a prev mprev mnode p sub,
    ascend t nU leaf None None = Ok a ∧
    node_prev a = Some prev ∧ node_at t prev = Some mprev ∧
    n_taxa_prev a = Some (len mprev) ∧ (len mprev < nU)%Z ∧
    node_at t (node a) = Some mnode ∧ (nU ≤ len mnode)%Z ∧
    up prev = Some (node a) ∧
    narrow_node t query_gene (Some nU) nL = Ok (Some p) ∧
    narrow t query_gene (Some nU) nL = Ok (Some sub) ∧
    node_at t p = Some sub ∧ p `suffix_of` leaf ∧ n ∈ get_leaves sub ∧
    p = (match nL with
         | None => prev
         | Some l => if bool_decide (l ≤ len mprev)%Z then prev else node a
         end).
Proof.
  intros Hq Hn Hleaf Hbig H2.
  destruct (ascend_spec t nU Hbig leaf None None n Hn)
    as (a & m & Ha & Hsuf & Hm & Hge & Hcase).
  destruct Hcase as [(Hnode & _) | (i & m' & Hprev & Hsuf' & Hm' & Hk & Hlt)].
  { rewrite Hnode, Hn in Hm. injection Hm as <-. rewrite (len_leaf n Hleaf) in Hge. lia. }
  set (p := match nL with
            | None => i :: node a
            | Some l => if bool_decide (l ≤ len m')%Z then i :: node a else node a
            end).
  assert (Hchoose : choose a nL = Ok p).
  { unfold choose, p. destruct nL as [l|]; rewrite ?Hk, Hprev; simpl; [| reflexivity].
    case_bool_decide; reflexivity. }
  assert (Hp : ∃ sub, node_at t p = Some sub ∧ p `suffix_of` leaf).
  { unfold p. destruct nL as [l|]; [case_bool_decide |]; eauto. }
  destruct Hp as (sub & Hsub & Hpl).
  assert (Hnn : narrow_node t query_gene (Some nU) nL = Ok (Some p)).
  { unfold narrow_node. rewrite bool_decide_eq_true_2 by lia.
    rewrite Hq. simpl. rewrite Ha. simpl. rewrite Hchoose. reflexivity. }
  exists a, (i :: node a), m', m, p, sub.
  repeat split; auto.
  - unfold narrow. rewrite Hnn. simpl.
    rewrite (proj2 (the_node_Ok _ _ _) Hsub). reflexivity.
  - destruct Hpl as [k ->]. rewrite node_at_app, Hsub in Hn. simpl in Hn.
    eapply descend_leaf; eauto.
Qed.

(** C10.  When the tree has more leaves than the upper bound and the query
    is a leaf: for an upper bound of at least 2 the loop body runs, so
    [node_prev] and [n_taxa_prev] are bound when line 92 reads them, and a
    subtree is returned; for an upper bound of 1 or less the loop body
    never runs, both are unbound, and line 92 raises. *)
Theorem C10_narrowing_needs_two t query_gene nU nL leaf n :
  tree_and t query_gene = Ok leaf → node_at t leaf = Some n → children n = [] →
  (nU < len t)%Z →
  ((2 ≤ nU)%Z →
     ∃ a prev k sub,
       ascend t nU leaf None None = Ok a ∧
       node_prev a = Some prev ∧ n_taxa_prev a = Some k ∧
       narrow t query_gene (Some nU) nL = Ok (Some sub)) ∧
  ((nU ≤ 1)%Z →
     ascend t nU leaf None None
       = Ok {| node := leaf; node_prev := None; n_taxa_prev := None |} ∧
     narrow t query_gene (Some nU) nL
       = Raise (UnboundLocalError (match nL with
                                   | None => "node_prev"
                                   | Some _ => "n_taxa_prev"
                                   end))).
Proof.
  intros Hq Hn Hleaf Hbig. split; intros HnU.
  - destruct (narrow_choice t query_gene nU nL leaf n Hq Hn Hleaf Hbig HnU)
      as (a & prev & mprev & mnode & p & sub & Ha & Hprev & _ & Hk & _ & _ & _ & _ & _ & Hnar & _).
    exists a, prev, (len mprev), sub. auto.
  - assert (Ha : ascend t nU leaf None None
                 = Ok {| node := leaf; node_prev := None; n_taxa_prev := None |}).
    { rewrite ascend_eq, (proj2 (the_node_Ok _ _ _) Hn).
      rewrite bool_decide_eq_false_2; [reflexivity |].
      pose proof (len_pos n). lia. }
    split; [exact Ha |].
    unfold narrow, narrow_node. rewrite bool_decide_eq_true_2 by lia.
    rewrite Hq. simpl. rewrite Ha. simpl. destruct nL; reflexivity.
Qed.

Lemma C10_narrowing_needs_two_witness :
  (∃ a prev k sub,
     ascend abcd 2 [0; 0]%nat None None = Ok a ∧
     node_prev a = Some prev ∧ n_taxa_prev a = Some k ∧
     narrow abcd "A" (Some 2%Z) None = Ok (Some sub)) ∧
  narrow abcd "A" (Some 1%Z) None = Raise (UnboundLocalError "node_prev").
Proof.
  split.
  - apply (C10_narrowing_needs_two abcd "A" 2 None [0; 0]%nat (leaf "A" 1));
      [reflexivity | reflexivity | reflexivity | reflexivity | reflexivity].
  - apply (C10_narrowing_needs_two abcd "A" 1 None [0; 0]%nat (leaf "A" 1));
      [reflexivity | reflexivity | reflexivity | reflexivity | discriminate].
Defined.

(** ** Ortholog inference *)

Lemma emit_tolerated (seen other : gset string) :
  emit (Z.of_nat (size (seen ∩ other)))
       (Z.min (Z.of_nat (size other)) (Z.of_nat (size seen))) = true
  ↔ tolerated seen other.
Proof.
  unfold emit, tolerated. repeat case_bool_decide; simpl; split; intros Hx;
    try reflexivity; try discriminate; lia.
Qed.

Lemma visit_rows n i seen v :
  v = visit_ancestor n i seen →
  (tolerated seen (species_other v) →
     rows v = Some (add_orthologs_to_file (genes_other v) (seen ∩ species_other v))) ∧
  (¬ tolerated seen (species_other v) → rows v = None).
Proof.
  intros ->. unfold visit_ancestor. cbn [rows species_other genes_other].
  match goal with |- context [emit ?o ?m] => destruct (emit o m) eqn:E end.
  - split; [reflexivity |]. intros Hno. destruct Hno. by apply emit_tolerated.
  - split; [| reflexivity]. intros Hyes. apply emit_tolerated in Hyes. congruence.
Qed.

(** The rounds of the loop of lines 160-171: one for each ancestor of the
    start, each with the species accumulated over the rounds before it. *)
Lemma ortholog_loop_spec t : ∀ n seen vs,
  ortholog_loop t n seen = Ok vs →
  length vs = length n ∧
  ∀ k v, vs !! k = Some v →
    ∃ i parent n_up,
      drop k n = i :: parent ∧ node_at t parent = Some n_up ∧
      v = visit_ancestor n_up i (seen ∪ ⋃ (species_other <$> take k vs)).
Proof.
  induction n as [|i parent IH]; intros seen vs Hloop; simpl in Hloop.
  - injection Hloop as <-. split; [reflexivity |]. intros k v Hk.
    rewrite lookup_nil in Hk. discriminate.
  - destruct (the_node t parent) as [n_up|] eqn:Hup; [| discriminate].
    apply the_node_Ok in Hup.
    destruct (ortholog_loop t parent _) as [vs'|] eqn:Hrec; [| discriminate].
    injection Hloop as <-. destruct (IH _ _ Hrec) as [Hlen Hvs].
    split; [simpl; congruence |]. intros [|k] v Hk; simpl in Hk.
    + injection Hk as <-. exists i, parent, n_up. simpl.
      rewrite union_empty_r_L. auto.
    + destruct (Hvs k v Hk) as (j & par & m & Hdrop & Hm & Hv).
      exists j, par, m. split; [exact Hdrop |]. split; [exact Hm |].
      rewrite Hv. f_equal. simpl. by rewrite (assoc_L (∪)).
Qed.

(** The synthetic trees of the threshold test: the second round meets a
    sister clade of four species, one of them seen before, against four
    accumulated species, and writes it, without the shared species; with a
    sister clade of three species it writes nothing. *)
Lemma thresholds_on_sample_trees :
  write_orthologs sister4 "q_q_1"
    = Ok [("Species", "Orthologs");
          ("a_a", "a_a_1"); ("b_b", "b_b_1"); ("c_c", "c_c_1"); ("d_d", "d_d_1");
          ("e_e", "e_e_1"); ("f_f", "f_f_1"); ("g_g", "g_g_1")] ∧
  write_orthologs sister3 "q_q_1"
    = Ok [("Species", "Orthologs");
          ("a_a", "a_a_1"); ("b_b", "b_b_1"); ("c_c", "c_c_1"); ("d_d", "d_d_1")].
Proof. split; vm_compute; reflexivity. Qed.

(** ** The loop body of the decomposer *)

Lemma body_skip fw n_taxa q st p n :
  the_node (t st) p = Ok n → (n_taxa < len n)%Z → body fw n_taxa q st p = Ok st.
Proof.
  intros Hn Hl. unfold body. rewrite Hn. simpl.
  rewrite bool_decide_eq_false_2 by lia. reflexivity.
Qed.

Lemma body_off fw n_taxa st p n :
  the_node (t st) p = Ok n → (len n ≤ n_taxa)%Z →
  body fw n_taxa false st p
  = Raise (match outfile st with
           | None => UnboundLocalError "outfile"
           | Some _ => ValueError "I/O operation on closed file"
           end).
Proof.
  intros Hn Hl. unfold body. rewrite Hn. simpl.
  rewrite bool_decide_eq_true_2 by lia. simpl.
  destruct (outfile st); reflexivity.
Qed.

Lemma body_on fw n_taxa st p n outgrp d :
  the_node (t st) p = Ok n → (len n ≤ n_taxa)%Z →
  pick_outgroup fw (t st) p = Ok outgrp → get_distance (t st) p outgrp = Ok d →
  body fw n_taxa true st p
  = if fgt d (dist n)
    then _ ← reread n (fsub d (dist n));
         Ok (commit st p (len n) (with_outgroup n outgrp d)
               (WriteSeqsToFasta fw (get_leaf_names n)))
    else Raise AssertionError.
Proof.
  intros Hn Hl Hpick Hd. unfold body. rewrite Hn. simpl.
  rewrite bool_decide_eq_true_2 by lia. simpl. rewrite Hpick. simpl.
  rewrite Hd. simpl. destruct (fgt d (dist n)); [| reflexivity]. simpl.
  destruct (reread n (fsub d (dist n))) as [[]|e]; reflexivity.
Qed.

(** A round of the loop that does not raise either left the locals alone,
    at a node above the target size, or extracted a subtree with an
    outgroup. *)
Lemma body_inv fw n_taxa q st p st' :
  body fw n_taxa q st p = Ok st' →
  ∃ n, node_at (t st) p = Some n ∧
    (((n_taxa < len n)%Z ∧ st' = st) ∨
     ((len n ≤ n_taxa)%Z ∧ q = true ∧
      ∃ outgrp d,
        pick_outgroup fw (t st) p = Ok outgrp ∧
        get_distance (t st) p outgrp = Ok d ∧
        fgt d (dist n) = true ∧
        st' = commit st p (len n) (with_outgroup n outgrp d)
                (WriteSeqsToFasta fw (get_leaf_names n)))).
Proof.
  intros Hb. destruct (the_node (t st) p) as [n|e] eqn:Hn;
    [| unfold body in Hb; rewrite Hn in Hb; discriminate].
  exists n. split; [by apply the_node_Ok |].
  destruct (decide (len n ≤ n_taxa)%Z) as [Hl|Hl].
  - right. split; [exact Hl |]. destruct q.
    + split; [reflexivity |].
      destruct (pick_outgroup fw (t st) p) as [outgrp|e] eqn:Hpick;
        [| unfold body in Hb; rewrite Hn in Hb; simpl in Hb;
           rewrite bool_decide_eq_true_2 in Hb by lia; simpl in Hb;
           rewrite Hpick in Hb; discriminate].
      destruct (get_distance (t st) p outgrp) as [d|e] eqn:Hd;
        [| unfold body in Hb; rewrite Hn in Hb; simpl in Hb;
           rewrite bool_decide_eq_true_2 in Hb by lia; simpl in Hb;
           rewrite Hpick in Hb; simpl in Hb; rewrite Hd in Hb; discriminate].
      rewrite (body_on _ _ _ _ _ _ _ Hn Hl Hpick Hd) in Hb.
      exists outgrp, d. destruct (fgt d (dist n)); [| discriminate].
      destruct (reread n (fsub d (dist n))) as [[]|e]; [| discriminate].
      injection Hb as <-. auto.
    + rewrite (body_off _ _ _ _ _ Hn Hl) in Hb. discriminate.
  - left. rewrite (body_skip _ _ _ _ _ n Hn) in Hb by lia.
    injection Hb as <-. split; [lia | reflexivity].
Qed.

Lemma for_each_app {S X : Type} (f : S → X → result S) (l1 l2 : list X) (st : S) :
  for_each f (l1 ++ l2) st = for_each f l1 st ≫= for_each f l2.
Proof.
  revert st. induction l1 as [|x l1 IH]; intros st; simpl; [reflexivity |].
  destruct (f st x) as [st'|e]; simpl; [apply IH | reflexivity].
Qed.

(** ** The stopping traversal *)

Lemma traverse_preorder_eq f n p :
  traverse_preorder f n p
  = p :: (if f n then [] else traverse_kids f (children n) 0 p).
Proof.
  destruct n as [s d cs]. simpl. f_equal. destruct (f _); [reflexivity |].
  generalize 0%nat. induction cs as [|c cs IH]; intros i; simpl; [reflexivity |].
  by rewrite IH.
Qed.

Lemma traverse_nodes_eq f n :
  traverse_nodes f n
  = n :: (if f n then [] else flat_map (traverse_nodes f) (children n)).
Proof. destruct n; reflexivity. Qed.

(** The positions yielded by the traversal name the nodes it yields. *)
Lemma traverse_omap f root : ∀ n p,
  node_at root p = Some n →
  omap (node_at root) (traverse_preorder f n p) = traverse_nodes f n.
Proof.
  induction n as [s d cs IH] using TreeNode_ind. intros p Hp.
  rewrite traverse_preorder_eq, traverse_nodes_eq. simpl. rewrite Hp. f_equal.
  destruct (f _); [reflexivity |].
  assert (Hkids : ∀ j c, cs !! j = Some c → node_at root ((0 + j)%nat :: p) = Some c).
  { intros j c Hc. rewrite node_at_cons, Hp. exact Hc. }
  clear Hp. revert Hkids. generalize 0%nat.
  induction IH as [|c cs Hc _ IHcs]; intros i Hkids; simpl; [reflexivity |].
  rewrite omap_app. f_equal.
  - apply Hc. specialize (Hkids 0%nat c eq_refl). by rewrite Nat.add_0_r in Hkids.
  - apply IHcs. intros j c' Hc'. specialize (Hkids (S j) c' Hc').
    by rewrite Nat.add_succ_r in Hkids.
Qed.

Lemma traverse_below f : ∀ n p q,
  q ∈ traverse_preorder f n p → p `suffix_of` q.
Proof.
  induction n as [s d cs IH] using TreeNode_ind. intros p q.
  rewrite traverse_preorder_eq. simpl. intros [-> | Hq]%elem_of_cons; [done |].
  destruct (f _); [by apply elem_of_nil in Hq |].
  revert Hq. generalize 0%nat.
  induction IH as [|c cs Hc _ IHcs]; intros i Hq; simpl in Hq;
    [by apply elem_of_nil in Hq |].
  apply elem_of_app in Hq as [Hq | Hq].
  - apply Hc in Hq. eapply suffix_cons_l. exact Hq.
  - eapply IHcs. exact Hq.
Qed.

Lemma traverse_kids_below f cs : ∀ i p q,
  q ∈ traverse_kids f cs i p → ∃ j, (i ≤ j)%nat ∧ (j :: p) `suffix_of` q.
Proof.
  induction cs as [|c cs IH]; intros i p q Hq; simpl in Hq;
    [by apply elem_of_nil in Hq |].
  apply elem_of_app in Hq as [Hq | Hq].
  - exists i. split; [lia |]. by eapply traverse_below.
  - destruct (IH _ _ _ Hq) as (j & Hj & Hsuf). exists j. split; [lia | done].
Qed.

Lemma ordered_app l1 l2 :
  ordered l1 → ordered l2 →
  (∀ x q, x ∈ l1 → q ∈ l2 → ¬ q `suffix_of` x) →
  ordered (l1 ++ l2).
Proof.
  induction l1 as [|x l1 IH]; intros H1 H2 Hx; simpl; [exact H2 |].
  destruct H1 as [Hall H1]. split.
  - apply Forall_app. split; [exact Hall |].
    apply Forall_forall. intros q Hq. apply Hx; [left | exact Hq].
  - apply IH; [exact H1 | exact H2 |]. intros y q Hy Hq. apply Hx; [by right | exact Hq].
Qed.

Lemma sibling_not_above (i j : nat) (p x q : path) :
  i ≠ j → (i :: p) `suffix_of` x → (j :: p) `suffix_of` q → ¬ q `suffix_of` x.
Proof.
  intros Hij [k ->] [k' ->] [k'' Heq].
  rewrite (assoc_L (++)) in Heq.
  apply app_inj_2 in Heq as [_ Heq]; [| reflexivity]. congruence.
Qed.

(** The traversal never yields a node at or above one it yielded before. *)
Lemma traverse_ordered f : ∀ n p, ordered (traverse_preorder f n p).
Proof.
  induction n as [s d cs IH] using TreeNode_ind. intros p.
  rewrite traverse_preorder_eq. simpl. destruct (f _); [split; [constructor | exact I] |].
  split.
  - apply Forall_forall. intros q Hq Hsuf.
    apply traverse_kids_below in Hq as (j & _ & Hj).
    pose proof (suffix_length _ _ (transitivity Hj Hsuf)) as Hlen. simpl in Hlen. lia.
  - generalize 0%nat. induction IH as [|c cs Hc _ IHcs]; intros i; simpl; [exact I |].
    apply ordered_app; [apply Hc | apply IHcs |].
    intros x q Hx Hq. apply traverse_below in Hx.
    apply traverse_kids_below in Hq as (j & Hj & Hq).
    eapply sibling_not_above; [| exact Hx | exact Hq]. lia.
Qed.

(** Renaming a node leaves alone every subtree that does not hold it. *)
Lemma descend_rename_at : ∀ jx ix n s,
  ¬ jx `prefix_of` ix → descend (rename_at n ix s) jx = descend n jx.
Proof.
  induction jx as [|j jx IH]; intros ix n s Hpre.
  - destruct Hpre. apply prefix_nil.
  - destruct ix as [|i ix]; simpl; [reflexivity |].
    destruct (children n !! i) as [c|] eqn:Hc; [| reflexivity]. simpl.
    destruct (decide (i = j)) as [->|Hij].
    + rewrite list_lookup_insert_eq by (eapply lookup_lt_Some; exact Hc).
      rewrite Hc. simpl. apply IH. intros Hp. apply Hpre. by apply prefix_cons.
    + by rewrite list_lookup_insert_ne.
Qed.

Lemma node_at_set_name root p s q :
  ¬ q `suffix_of` p → node_at (set_name root p s) q = node_at root q.
Proof.
  intros Hsuf. unfold node_at, set_name. apply descend_rename_at.
  intros Hpre. apply Hsuf. by apply suffix_prefix_reverse.
Qed.

(** With a target of at least 1, the nodes at which the traversal stops
    hold the leaves of the tree, each once and in order. *)
Lemma boundary_leaves n_taxa :
  (1 ≤ n_taxa)%Z → ∀ n,
  flat_map get_leaves
    (filter (λ m, (len m ≤ n_taxa)%Z) (traverse_nodes (stop_fn n_taxa) n))
  = get_leaves n.
Proof.
  intros H1. induction n as [s d cs IH] using TreeNode_ind.
  rewrite traverse_nodes_eq. unfold stop_fn at 1. case_bool_decide as Hl.
  - rewrite filter_cons_True by exact Hl. simpl. apply app_nil_r.
  - rewrite filter_cons_False by exact Hl. simpl children.
    destruct cs as [|c cs]; [exfalso; apply Hl; rewrite len_leaf; [lia | reflexivity] |].
    rewrite get_leaves_node. clear Hl. induction IH as [|c' cs' Hc _ IHcs]; [reflexivity |].
    simpl. rewrite filter_app, flat_map_app. f_equal; assumption.
Qed.

(** ** The first pass of the decomposer *)

Lemma commit_subtrees st p l x msa :
  subtrees (fs (commit st p l x msa)) = subtrees (fs st) ++ [nwk_tree x].
Proof. unfold subtrees, commit. simpl. by rewrite fmap_app. Qed.

Lemma sum_snoc (l : list Z) (x : Z) :
  foldr Z.add 0%Z (l ++ [x]) = (foldr Z.add 0%Z l + x)%Z.
Proof. induction l as [|y l IH]; simpl; [lia |]. rewrite IH. lia. Qed.

Lemma profiles_snoc ns n : profiles (ns ++ [n]) = (profiles ns + Z.min 5 (len n))%Z.
Proof. unfold profiles. rewrite fmap_app. apply sum_snoc. Qed.

(** The subtrees that the loop writes are the nodes of the tree it was
    given at which the traversal stops: a node is still as it was in that
    tree when the loop reaches it. *)
Lemma loop_subtrees t0 fw n_taxa q : ∀ l st st',
  ordered l → (∀ p, p ∈ l → node_at (t st) p = node_at t0 p) →
  for_each (body fw n_taxa q) l st = Ok st' →
  subtrees (fs st')
  = subtrees (fs st) ++ filter (λ m, (len m ≤ n_taxa)%Z) (omap (node_at t0) l).
Proof.
  induction l as [|p l IH]; intros st st' Hord Hsame Hrun; simpl in Hrun.
  - injection Hrun as <-. simpl. by rewrite app_nil_r.
  - destruct (body fw n_taxa q st p) as [st1|e] eqn:Hb; [| discriminate].
    simpl in Hrun. destruct Hord as [Hall Hord].
    apply body_inv in Hb as (n & Hn & Hcase).
    assert (Hn0 : node_at t0 p = Some n) by (rewrite <- Hsame; [done | left]).
    simpl. rewrite Hn0.
    destruct Hcase as [(Hl & ->) | (Hl & _ & outgrp & d & _ & _ & _ & ->)].
    + rewrite filter_cons_False by lia. apply IH; [exact Hord | | exact Hrun].
      intros r Hr. apply Hsame. by right.
    + rewrite filter_cons_True by done.
      rewrite (IH _ st' Hord) with (2 := Hrun).
      * rewrite commit_subtrees. simpl. by rewrite <- (assoc_L (++)).
      * intros r Hr. simpl. rewrite node_at_set_name; [apply Hsame; by right |].
        eapply Forall_forall in Hall; eauto.
Qed.

Lemma loop_profile fw n_taxa q : ∀ l st st',
  for_each (body fw n_taxa q) l st = Ok st' →
  n_profile st = profiles (subtrees (fs st)) →
  n_profile st' = profiles (subtrees (fs st')).
Proof.
  induction l as [|p l IH]; intros st st' Hrun Hinv; simpl in Hrun.
  - by injection Hrun as <-.
  - destruct (body fw n_taxa q st p) as [st1|e] eqn:Hb; [| discriminate].
    simpl in Hrun. apply IH in Hrun; [exact Hrun |].
    apply body_inv in Hb as (n & _ & [(_ & ->) | (_ & _ & outgrp & d & _ & _ & _ & ->)]);
      [exact Hinv |].
    rewrite commit_subtrees, profiles_snoc. simpl. by rewrite Hinv.
Qed.

Lemma loop_sub_prefix fw n_taxa q : ∀ l st st',
  for_each (body fw n_taxa q) l st = Ok st' → sub (fs st) `prefix_of` sub (fs st').
Proof.
  induction l as [|p l IH]; intros st st' Hrun; simpl in Hrun.
  - by injection Hrun as <-.
  - destruct (body fw n_taxa q st p) as [st1|e] eqn:Hb; [| discriminate].
    simpl in Hrun. apply IH in Hrun. etransitivity; [| exact Hrun].
    apply body_inv in Hb as (n & _ & [(_ & ->) | (_ & _ & outgrp & d & _ & _ & _ & ->)]);
      [done |].
    simpl. by apply prefix_app_r.
Qed.

(** A call that returns has either returned at line 60 or run the loop to
    its end. *)
Lemma split_tree_inv t0 fw n_taxa q r :
  split_tree t0 fw n_taxa q = Ok r →
  ((len t0 ≤ n_taxa)%Z ∧
   r = {| returned := Z.min 5 (len t0);
          written := {| sub := [(0%Z, {| nwk_tree := t0; nwk_outgroup := None |})];
                        msa_sub := [];
                        super := None |} |}) ∨
  ((n_taxa < len t0)%Z ∧
   ∃ st,
     for_each (body fw n_taxa q) (traverse_preorder (stop_fn n_taxa) t0 [])
       (locals0 t0) = Ok st ∧
     returned r = n_profile st ∧ sub (written r) = sub (fs st) ∧
     msa_sub (written r) = msa_sub (fs st)).
Proof.
  unfold split_tree. case_bool_decide as Hl.
  - intros [= <-]. by left.
  - intros Hrun. right. split; [lia |].
    apply bind_Ok in Hrun as (st & Hloop & Hrest).
    apply bind_Ok in Hrest as (sup & _ & Hr). simpl in Hr.
    apply bind_Ok in Hr as (u & _ & Hr). injection Hr as <-.
    exists st. auto.
Qed.

Lemma flat_map_leaf_names ns :
  flat_map get_leaf_names ns = name <$> flat_map get_leaves ns.
Proof.
  induction ns as [|n ns IH]; simpl; [reflexivity |].
  by rewrite fmap_app, IH.
Qed.

(** The subtrees of a decomposition that ran to its end are the nodes at
    which the traversal of the tree stops. *)
Lemma split_subtrees t0 fw n_taxa q r :
  (n_taxa < len t0)%Z → split_tree t0 fw n_taxa q = Ok r →
  subtrees (written r)
  = filter (λ m, (len m ≤ n_taxa)%Z) (traverse_nodes (stop_fn n_taxa) t0).
Proof.
  intros Hbig Hrun.
  apply split_tree_inv in Hrun as [(Hl & _) | (_ & st & Hloop & _ & Hsub & _)]; [lia |].
  apply (loop_subtrees t0) in Hloop; [| apply traverse_ordered | reflexivity].
  unfold subtrees at 1. rewrite Hsub. fold (subtrees (fs st)). rewrite Hloop.
  simpl. by rewrite (traverse_omap _ t0 t0 [] (node_at_nil t0)).
Qed.

(** ** The choice of the outgroup *)

Lemma mapM_Ok_inv {A B : Type} (f : A → result B) : ∀ l ys,
  mapM f l = Ok ys → Forall2 (λ a y, f a = Ok y) l ys.
Proof.
  induction l as [|a l IH]; intros ys H; simpl in H.
  - injection H as <-. constructor.
  - destruct (f a) as [y|e] eqn:Hy; [| discriminate]. simpl in H.
    destruct (mapM f l) as [k|e] eqn:Hk; [| discriminate]. simpl in H.
    injection H as <-. constructor; [exact Hy | by apply IH].
Qed.

Lemma foldl_min_le : ∀ xs x,
  (foldl Z.min x xs ≤ x)%Z ∧ Forall (λ y, (foldl Z.min x xs ≤ y)%Z) xs.
Proof.
  induction xs as [|y xs IH]; intros x; simpl; [split; [lia | constructor] |].
  destruct (IH (Z.min x y)) as [Hle Hall]. split; [lia |].
  constructor; [lia | exact Hall].
Qed.

Lemma index_spec (x : Z) : ∀ ys k,
  index x ys = Ok k →
  ys !! k = Some x ∧ ∀ j, (j < k)%nat → ys !! j ≠ Some x.
Proof.
  induction ys as [|y ys IH]; intros k H; simpl in H; [discriminate |].
  destruct (Z.eqb_spec y x) as [->|Hne].
  - injection H as <-. split; [reflexivity |]. intros j Hj. lia.
  - destruct (index x ys) as [i|e] eqn:Hi; [| discriminate]. simpl in H.
    injection H as <-. destruct (IH i eq_refl) as [Hk Hfirst].
    split; [exact Hk |]. intros [|j] Hj; simpl; [congruence |].
    apply Hfirst. lia.
Qed.

(** The weight of line 80: [9e99] for a partition leaf, the number of gaps
    for a gene of the alignment. *)
Lemma pick_outgroup_spec fw root i parent n_up outgrp :
  node_at root parent = Some n_up →
  pick_outgroup fw root (i :: parent) = Ok outgrp →
  let sister_genes := flat_map get_leaf_names (delete i (children n_up)) in
  let weight := λ g, if String.prefix "PART." g then Some f9e99 else d_ngaps fw !! g in
  ∃ k x,
    sister_genes !! k = Some outgrp ∧ weight outgrp = Some x ∧
    (∀ g, g ∈ sister_genes → ∃ y, weight g = Some y ∧ (x ≤ y)%Z) ∧
    (∀ j g, (j < k)%nat → sister_genes !! j = Some g → weight g ≠ Some x).
Proof.
  intros Hup Hpick sister_genes weight. unfold pick_outgroup in Hpick.
  apply bind_Ok in Hpick as (n' & Hn' & Hpick).
  apply the_node_Ok in Hn'. rewrite Hup in Hn'. injection Hn' as <-.
  fold sister_genes in Hpick.
  apply bind_Ok in Hpick as (n_gaps & Hgaps & Hpick).
  apply bind_Ok in Hpick as (x & Hx & Hpick).
  apply bind_Ok in Hpick as (k & Hk & Hpick).
  apply mapM_Ok_inv in Hgaps.
  assert (Hw : Forall2 (λ g y, weight g = Some y) sister_genes n_gaps).
  { eapply Forall2_impl; [exact Hgaps |]. intros g y. unfold weight. simpl.
    destruct (String.prefix "PART." g); [by intros [= ->] |].
    destruct (d_ngaps fw !! g); [by intros [= ->] | discriminate]. }
  clear Hgaps. destruct n_gaps as [|y0 ys] eqn:En; [discriminate |].
  injection Hx as <-.
  destruct (sister_genes !! k) as [g|] eqn:Hg; [| discriminate].
  injection Hpick as ->. apply index_spec in Hk as [Hk Hfirst].
  destruct (foldl_min_le ys y0) as [Hle Hall].
  exists k, (foldl Z.min y0 ys). split; [exact Hg |].
  split; [| split].
  - destruct (Forall2_lookup_l _ _ _ _ _ Hw Hg) as (y & Hy & Hwy). congruence.
  - intros g Hgin. apply list_elem_of_lookup in Hgin as [j Hj].
    destruct (Forall2_lookup_l _ _ _ _ _ Hw Hj) as (y & Hy & Hwy).
    exists y. split; [exact Hwy |].
    destruct j as [|j]; simpl in Hy; [injection Hy as <-; exact Hle |].
    eapply Forall_lookup_1 in Hall; [exact Hall | exact Hy].
  - intros j g Hj Hgj Hwg.
    destruct (Forall2_lookup_l _ _ _ _ _ Hw Hgj) as (y & Hy & Hwy).
    apply (Hfirst j Hj). congruence.
Qed.

(** The outgroup is a partition leaf only when no gene of
    the sister clade weighs less than [9e99], that is, when the sister
    clade has partition leaves only. *)
Lemma partition_outgroup_only_without_genes fw root i parent n_up outgrp g c :
  node_at root parent = Some n_up →
  pick_outgroup fw root (i :: parent) = Ok outgrp →
  String.prefix "PART." outgrp = true →
  g ∈ flat_map get_leaf_names (delete i (children n_up)) →
  String.prefix "PART." g = false → d_ngaps fw !! g = Some c →
  (f9e99 ≤ c)%Z.
Proof.
  intros Hup Hpick Hpart Hg Hgene Hc.
  destruct (pick_outgroup_spec fw root i parent n_up outgrp Hup Hpick)
    as (k & x & _ & Hx & Hmin & _).
  simpl in Hx. rewrite Hpart in Hx. injection Hx as <-.
  destruct (Hmin g Hg) as (y & Hy & Hle). simpl in Hy.
  rewrite Hgene, Hc in Hy. by injection Hy as <-.
Qed.

(** ** Positions of nodes *)

Lemma max_list_ge (l : list nat) x : x ∈ l → (x ≤ foldr Nat.max 0 l)%nat.
Proof.
  induction l as [|y l IH]; intros Hx; [by apply elem_of_nil in Hx |].
  apply elem_of_cons in Hx as [-> | Hx]; simpl; [lia |].
  specialize (IH Hx). lia.
Qed.

Lemma height_child n c : c ∈ children n → (height c < height n)%nat.
Proof.
  destruct n as [s d cs]. simpl. intros Hc.
  apply Nat.lt_succ_r, max_list_ge, list_elem_of_fmap. eauto.
Qed.

Lemma descend_level : ∀ ix n p m,
  descend n ix = Some m → (reverse ix ++ p, m) ∈ level (length ix) n p.
Proof.
  induction ix as [|i ix IH]; intros n p m Hd; simpl in Hd.
  - injection Hd as ->. simpl. left.
  - destruct (children n !! i) as [c|] eqn:Hc; [| discriminate]. simpl in Hd.
    simpl. apply list_elem_of_In, in_concat.
    exists (level (length ix) c (i :: p)). split; apply list_elem_of_In.
    + apply (elem_of_lookup_imap_2 (λ i c, level (length ix) c (i :: p)) _ _ _ Hc).
    + rewrite reverse_cons, <- (assoc_L (++)). simpl. by apply IH.
Qed.

Lemma descend_height : ∀ ix n m,
  descend n ix = Some m → (length ix < height n)%nat.
Proof.
  induction ix as [|i ix IH]; intros n m Hd; simpl in Hd.
  - destruct n; simpl; lia.
  - destruct (children n !! i) as [c|] eqn:Hc; [| discriminate]. simpl in Hd.
    apply IH in Hd. apply list_elem_of_lookup_2 in Hc.
    apply height_child in Hc. simpl. lia.
Qed.

(** The level-order traversal meets every node of the tree. *)
Lemma levelorder_complete root q m :
  node_at root q = Some m → (q, m) ∈ traverse_levelorder root.
Proof.
  unfold node_at, traverse_levelorder. intros Hd.
  apply list_elem_of_In, in_concat.
  exists (level (length (reverse q)) root []). split; apply list_elem_of_In.
  - apply (list_elem_of_fmap_2 (λ d, level d root [])).
    apply elem_of_seq. apply descend_height in Hd. lia.
  - pose proof (descend_level _ _ [] _ Hd) as Hin.
    by rewrite reverse_involutive, app_nil_r in Hin.
Qed.

Lemma translate_node_unique root s tp q m :
  translate_node root s = Ok tp → node_at root q = Some m → name m = s → q = tp.
Proof.
  unfold translate_node. intros Ht Hq Hname.
  assert (Hin : (q, m) ∈ search_nodes root s).
  { unfold search_nodes. apply list_elem_of_filter. split; [exact Hname |].
    by apply levelorder_complete. }
  destruct (search_nodes root s) as [|[p1 m1] [|x l]]; try discriminate.
  injection Ht as <-. apply list_elem_of_singleton in Hin. congruence.
Qed.

Lemma leaf_name_position : ∀ c g,
  g ∈ get_leaf_names c →
  ∃ ix l, descend c ix = Some l ∧ children l = [] ∧ name l = g.
Proof.
  induction c as [s d cs IH] using TreeNode_ind. intros g Hg.
  unfold get_leaf_names in Hg. apply list_elem_of_fmap in Hg as (l & -> & Hl).
  destruct cs as [|c0 cs0].
  - simpl in Hl. apply list_elem_of_singleton in Hl as ->. by exists [], (Node s d []).
  - rewrite get_leaves_node in Hl.
    apply list_elem_of_In, in_flat_map in Hl as (c & Hc & Hlc).
    apply list_elem_of_In in Hc, Hlc.
    rewrite Forall_forall in IH.
    destruct (IH c Hc (name l)) as (ix & l' & Hd & Hleaf & Hn).
    { unfold get_leaf_names. by apply list_elem_of_fmap_2. }
    apply list_elem_of_lookup in Hc as [j Hj].
    exists (j :: ix), l'. simpl. rewrite Hj. auto.
Qed.

Lemma sister_position {A : Type} (cs : list A) (i : nat) (c : A) :
  c ∈ delete i cs → ∃ j, j ≠ i ∧ cs !! j = Some c.
Proof.
  intros Hc. apply list_elem_of_lookup in Hc as [k Hk].
  rewrite list_lookup_delete in Hk. case_decide.
  - exists k. split; [lia | exact Hk].
  - exists (S k). split; [lia | exact Hk].
Qed.

Lemma common_ancestor_of_sisters (i j : nat) (k parent : path) :
  i ≠ j → get_common_ancestor (k ++ j :: parent) (i :: parent) = parent.
Proof.
  intros Hij. unfold get_common_ancestor.
  pose proof (max_suffix_fst_suffix (k ++ j :: parent) (i :: parent)) as H1.
  pose proof (max_suffix_snd_suffix (k ++ j :: parent) (i :: parent)) as H2.
  pose proof (max_suffix_max (k ++ j :: parent) (i :: parent) parent) as H3.
  set (a := (max_suffix (k ++ j :: parent) (i :: parent)).2) in *.
  assert (Hpa : parent `suffix_of` a).
  { apply H3; [apply suffix_app_r; by apply suffix_cons_r | by apply suffix_cons_r]. }
  destruct a as [|x a'].
  - apply suffix_nil_inv in Hpa. by subst.
  - apply suffix_cons_inv in H2 as [Heq | Hsuf].
    + exfalso. rewrite Heq in H1.
      eapply (sibling_not_above j i parent (k ++ j :: parent) (i :: parent));
        [congruence | by apply suffix_app_r | done | exact H1].
    + by apply (anti_symm suffix).
Qed.

(** ** The second pass *)

Lemma detach_leaves_eq n :
  detach_leaves n
  = match children n with
    | [] => None
    | _ :: _ => Some (Node (name n) (dist n) (omap detach_leaves (children n)))
    end.
Proof. destruct n as [s d [|c cs]]; reflexivity. Qed.

Lemma height_detach : ∀ n m, detach_leaves n = Some m → (height m ≤ height n)%nat.
Proof.
  induction n as [s d cs IH] using TreeNode_ind. intros m.
  rewrite detach_leaves_eq. simpl. destruct cs as [|c0 cs0] eqn:Ecs; [discriminate |].
  rewrite <- Ecs in *. clear Ecs. intros [= <-]. simpl. apply le_n_S.
  induction IH as [|c cs Hc _ IHcs]; [reflexivity |].
  change (omap detach_leaves (c :: cs))
    with (match detach_leaves c with
          | Some y => y :: omap detach_leaves cs
          | None => omap detach_leaves cs
          end).
  rewrite fmap_cons. cbn [foldr].
  destruct (detach_leaves c) as [m|] eqn:Hm; [| lia].
  rewrite fmap_cons. cbn [foldr]. specialize (Hc m eq_refl). lia.
Qed.

Lemma mapM_ok {A B : Type} (f : A → result B) (l : list A) :
  (∀ x, x ∈ l → ∃ y, f x = Ok y) → ∃ ys, mapM f l = Ok ys.
Proof.
  induction l as [|x l IH]; intros Hall; [by eexists |].
  destruct (Hall x) as [y Hy]; [left |].
  destruct IH as [ys Hys]; [intros z Hz; apply Hall; by right |].
  exists (y :: ys). simpl. rewrite Hy. simpl. rewrite Hys. reflexivity.
Qed.

(** The bound given to the second pass is never reached. *)
Lemma remove_subtrees_total n_taxa : ∀ fuel n,
  (height n ≤ fuel)%nat → ∃ r, remove_subtrees fuel n_taxa n = Ok r.
Proof.
  induction fuel as [|fuel IH]; intros n Hh; [destruct n; simpl in Hh; lia |].
  simpl.
  assert (Hm : ∀ m, (height m ≤ height n)%nat →
            ∃ r, (if stop_fn n_taxa m then Ok (Some m)
                  else cs ← mapM (remove_subtrees fuel n_taxa) (children m);
                       Ok (Some (Node (name m) (dist m) (omap id cs)))) = Ok r).
  { intros m Hle. destruct (stop_fn n_taxa m); [by eexists |].
    destruct (mapM_ok (remove_subtrees fuel n_taxa) (children m)) as [cs Hcs].
    - intros c Hc. apply IH. apply height_child in Hc. lia.
    - rewrite Hcs. by eexists. }
  destruct (String.prefix "PART." (name n)).
  - destruct (detach_leaves n) as [m|] eqn:Hd; [| by eexists].
    apply Hm. by apply height_detach.
  - by apply Hm.
Qed.

(** ** The distance to the outgroup *)

Lemma climb_stop root p acc : climb root p p acc = Ok acc.
Proof. destruct p; simpl; [reflexivity |]. destruct (decide _); congruence. Qed.

(** Walking up [k] levels adds the branch lengths met, in their order. *)
Lemma climb_branches root anc : ∀ k acc m,
  node_at root (k ++ anc) = Some m →
  climb root (k ++ anc) anc acc
  = Ok (foldl fadd acc (branches_up root (k ++ anc) (length k))).
Proof.
  induction k as [|x k IH]; intros acc m Hm; [apply climb_stop |].
  change ((x :: k) ++ anc) with (x :: (k ++ anc)) in *.
  destruct (node_at_parent _ _ _ _ Hm) as (n_up & Hup & _).
  simpl. rewrite Hm. rewrite decide_False.
  - by rewrite (IH _ n_up Hup).
  - intros Heq. apply (f_equal length) in Heq. simpl in Heq.
    rewrite length_app in Heq. lia.
Qed.

(** The outgroup picked for the node at [i :: parent], once its distance
    has been computed: a leaf below another child of the parent, the only
    node of its name; and the distance is the sum, from [0.0], of the
    branch of the node and then of the branches from the outgroup leaf up
    to that child. *)
Lemma outgroup_position fw root i parent n outgrp d :
  node_at root (i :: parent) = Some n →
  pick_outgroup fw root (i :: parent) = Ok outgrp →
  get_distance root (i :: parent) outgrp = Ok d →
  ∃ j k l,
    j ≠ i ∧ node_at root (k ++ j :: parent) = Some l ∧
    children l = [] ∧ name l = outgrp ∧
    translate_node root outgrp = Ok (k ++ j :: parent) ∧
    d = foldl fadd zero (dist n :: branches_up root (k ++ j :: parent) (S (length k))).
Proof.
  intros Hn Hpick Hd.
  destruct (node_at_parent _ _ _ _ Hn) as (n_up & Hup & Hi).
  destruct (pick_outgroup_spec fw root i parent n_up outgrp Hup Hpick)
    as (k0 & _ & Hk0 & _).
  apply list_elem_of_lookup_2, list_elem_of_In, in_flat_map in Hk0 as (c & Hc & Hg).
  apply list_elem_of_In in Hc, Hg.
  apply sister_position in Hc as (j & Hji & Hj).
  apply leaf_name_position in Hg as (ix & l & Hl & Hleaf & Hname).
  assert (Hq : node_at root (reverse ix ++ j :: parent) = Some l).
  { rewrite node_at_app, node_at_cons, Hup. simpl. rewrite Hj. simpl.
    unfold node_at. by rewrite reverse_involutive. }
  unfold get_distance in Hd. apply bind_Ok in Hd as (tp & Htp & Hd).
  pose proof (translate_node_unique _ _ _ _ _ Htp Hq Hname) as Heq. subst tp.
  exists j, (reverse ix), l. do 5 (split; [done |]).
  cbv zeta in Hd. rewrite common_ancestor_of_sisters in Hd by congruence.
  apply bind_Ok in Hd as (d1 & Hd1 & Hd).
  assert (H1 : climb root (i :: parent) parent zero = Ok (fadd zero (dist n))).
  { pose proof (climb_branches root parent [i] zero n Hn) as H1.
    cbn [app length branches_up] in H1. rewrite Hn in H1. exact H1. }
  rewrite H1 in Hd1. apply Ok_inj in Hd1 as <-.
  assert (H2 : climb root (reverse ix ++ j :: parent) parent (fadd zero (dist n))
               = Ok (foldl fadd (fadd zero (dist n))
                       (branches_up root (reverse ix ++ j :: parent)
                          (S (length (reverse ix)))))).
  { pose proof (climb_branches root parent (reverse ix ++ [j]) (fadd zero (dist n)) l)
      as H2.
    rewrite <- (assoc_L (++)), length_app, Nat.add_1_r in H2. by apply H2. }
  rewrite H2 in Hd. apply Ok_inj in Hd as <-. reflexivity.
Qed.

(** A root whose first child has two leaves or more can be unrooted: this
    is the tree read back from a subtree file with an outgroup. *)
Lemma unroot_inner_first n c0 c1 :
  children n = [c0; c1] → (2 ≤ len c0)%Z → ∃ u, unroot n = Ok u.
Proof.
  intros Hcs Hlen. unfold unroot. rewrite Hcs.
  destruct c0 as [s d [|c cs]]; [rewrite len_leaf in Hlen by reflexivity; lia |].
  simpl. by eexists.
Qed.

(** ** The decomposer's results *)

(** The subtrees written when the first pass ends are the nodes at which
    the traversal of the tree stops. *)
Lemma loop_boundaries t0 fw n_taxa q st :
  for_each (body fw n_taxa q) (traverse_preorder (stop_fn n_taxa) t0 [])
    (locals0 t0) = Ok st →
  subtrees (fs st)
  = filter (λ m, (len m ≤ n_taxa)%Z) (traverse_nodes (stop_fn n_taxa) t0).
Proof.
  intros Hloop.
  apply (loop_subtrees t0) in Hloop; [| apply traverse_ordered | reflexivity].
  rewrite Hloop. simpl. by rewrite (traverse_omap _ t0 t0 [] (node_at_nil t0)).
Qed.

(** When the first pass has ended, the call returns what the pass has
    written, unless the supertree cannot be unrooted. *)
Lemma split_tree_after_loop t0 fw n_taxa q st :
  (n_taxa < len t0)%Z →
  for_each (body fw n_taxa q) (traverse_preorder (stop_fn n_taxa) t0 [])
    (locals0 t0) = Ok st →
  (∃ r, split_tree t0 fw n_taxa q = Ok r ∧ returned r = n_profile st ∧
        sub (written r) = sub (fs st) ∧ msa_sub (written r) = msa_sub (fs st)) ∨
  split_tree t0 fw n_taxa q
  = Raise (TreeError "Cannot unroot a tree with only two leaves").
Proof.
  intros Hbig Hloop. unfold split_tree. rewrite bool_decide_eq_false_2 by lia.
  rewrite Hloop. simpl.
  destruct (remove_subtrees_total n_taxa (height (t st)) (t st)) as [sup Hsup]; [lia |].
  rewrite Hsup. simpl. unfold unroot.
  destruct (children (default (t st) sup)) as [|c0 [|c1 [|c2 cs]]];
    try (left; eexists; split; [reflexivity | auto]).
  destruct (is_leaf c0); simpl; [| left; eexists; split; [reflexivity | auto]].
  destruct (is_leaf c1); simpl; [by right |].
  left. eexists. split; [reflexivity | auto].
Qed.

(** C4, as amended.  For a target of at least 1 and a tree with more leaves
    than the target, when the pass over the boundary nodes has ended, the
    subtrees written have as leaves, taken in order, the leaves of the
    tree, each once; and no subtree has more leaves than the target (the
    outgroup leaf is not part of [nwk_tree]).  These are the subtree files
    of the call when it returns; the only exception left after the pass is
    that of unrooting the supertree. *)
Theorem C4_leaf_coverage t0 fw n_taxa q st :
  (1 ≤ n_taxa)%Z → (n_taxa < len t0)%Z →
  for_each (body fw n_taxa q) (traverse_preorder (stop_fn n_taxa) t0 [])
    (locals0 t0) = Ok st →
  flat_map get_leaves (subtrees (fs st)) = get_leaves t0 ∧
  flat_map get_leaf_names (subtrees (fs st)) = get_leaf_names t0 ∧
  Forall (λ n, (len n ≤ n_taxa)%Z) (subtrees (fs st)) ∧
  ((∃ r, split_tree t0 fw n_taxa q = Ok r ∧ sub (written r) = sub (fs st)) ∨
   split_tree t0 fw n_taxa q
   = Raise (TreeError "Cannot unroot a tree with only two leaves")).
Proof.
  intros H1 Hbig Hloop. rewrite flat_map_leaf_names.
  rewrite (loop_boundaries _ _ _ _ _ Hloop), (boundary_leaves n_taxa H1).
  split; [reflexivity |]. split; [reflexivity |]. split.
  - apply Forall_forall. intros n Hn. by apply list_elem_of_filter in Hn as [Hl _].
  - destruct (split_tree_after_loop t0 fw n_taxa q st Hbig Hloop)
      as [(r & Hr & _ & Hsub & _) | Hraise]; [left; eauto | by right].
Qed.

Lemma C4_leaf_coverage_witness :
  ∃ st r,
    for_each (body t8_fa 4 true) (traverse_preorder (stop_fn 4) t8 []) (locals0 t8)
    = Ok st ∧
    flat_map get_leaf_names (subtrees (fs st))
    = ["A"; "B"; "C"; "D"; "E"; "F"; "G"; "H"] ∧
    split_tree t8 t8_fa 4 true = Ok r ∧ sub (written r) = sub (fs st).
Proof.
  destruct (for_each (body t8_fa 4 true) (traverse_preorder (stop_fn 4) t8 [])
              (locals0 t8)) as [st|e] eqn:E; [| vm_compute in E; discriminate].
  destruct (C4_leaf_coverage t8 t8_fa 4 true st) as (_ & Hnames & _ & Hcall);
    [lia | reflexivity | exact E |].
  destruct Hcall as [(r & Hr & Hsub) | Hraise]; [| vm_compute in Hraise; discriminate].
  exists st, r. split; [reflexivity |]. split; [exact Hnames |]. split; assumption.
Defined.

(** C4 as stated fails in two ways.  For a target of 0 no node has 0
    leaves or fewer, so the traversal stops nowhere, the call returns, and
    no subtree holds the four leaves of [((A,B),(C,D))].  And the pass can
    stop at its first boundary node, before any subtree is written: in
    [((A:1,B:1):1,(C:0,D:0):0)] with target 2 the outgroup [D] of [(A,B)]
    is at distance 1, which is not more than the branch of [(A,B)], and the
    assertion of line 89 fails. *)
Lemma C4_uncovered_leaves :
  (∃ r, (0 < len abcd)%Z ∧ split_tree abcd abcd_fa 0 true = Ok r ∧
        subtrees (written r) = [] ∧
        flat_map get_leaf_names (subtrees (written r)) ≠ get_leaf_names abcd) ∧
  ((2 < len flat)%Z ∧
   traverse_preorder (stop_fn 2) flat [] = [[]; [0]; [1]]%nat ∧
   body abcd_fa 2 true (locals0 flat) [] = Ok (locals0 flat) ∧
   body abcd_fa 2 true (locals0 flat) [0%nat] = Raise AssertionError ∧
   split_tree flat abcd_fa 2 true = Raise AssertionError).
Proof.
  split.
  - eexists. split; [reflexivity |]. split; [vm_compute; reflexivity |].
    split; [reflexivity | discriminate].
  - split; [reflexivity |]. repeat split; vm_compute; reflexivity.
Qed.

(** C5, as amended.  When the loop, with outgroup preservation on, reaches
    a boundary node [n] for which the outgroup [outgrp] is picked and its
    distance [d] computed: the outgroup is a leaf below another child of
    the parent of [n], and [d] is the float sum, from [0.0], of the branch
    of [n] and then of the branches from the outgroup leaf up to that
    child.  If [d > n.dist], the subtree file gets the outgroup leaf with
    the text ['%0.5f' % (d - n.dist)] as its branch length: the round goes
    on to read the text back and ends with this file added to the subtree
    files, and the file is among those of the finished decomposition.  If
    not, the decomposition stops with an [AssertionError] and returns
    nothing. *)
Theorem C5_outgroup_distance t0 fw n_taxa l1 i parent l2 st n outgrp d :
  (n_taxa < len t0)%Z →
  traverse_preorder (stop_fn n_taxa) t0 [] = l1 ++ (i :: parent) :: l2 →
  for_each (body fw n_taxa true) l1 (locals0 t0) = Ok st →
  node_at (t st) (i :: parent) = Some n → (len n ≤ n_taxa)%Z →
  pick_outgroup fw (t st) (i :: parent) = Ok outgrp →
  get_distance (t st) (i :: parent) outgrp = Ok d →
  let file := (i_part st,
               {| nwk_tree := n;
                  nwk_outgroup := Some ("SHOOTOUTGROUP_" +:+ outgrp,
                                        format_0_5f (fsub d (dist n))) |}) in
  (∃ j k l,
     j ≠ i ∧ node_at (t st) (k ++ j :: parent) = Some l ∧
     children l = [] ∧ name l = outgrp ∧
     d = foldl fadd zero
           (dist n :: branches_up (t st) (k ++ j :: parent) (S (length k)))) ∧
  (fgt d (dist n) = true →
     ∃ st', body fw n_taxa true st (i :: parent)
            = (reread n (fsub d (dist n)) ≫= λ _, Ok st') ∧
            sub (fs st') = sub (fs st) ++ [file] ∧
            ∀ r, split_tree t0 fw n_taxa true = Ok r → file ∈ sub (written r)) ∧
  (fgt d (dist n) = false → split_tree t0 fw n_taxa true = Raise AssertionError).
Proof.
  intros Hbig Hl Hl1 Hn Hlen Hpick Hd file.
  pose proof (proj2 (the_node_Ok _ _ _) Hn) as Hthe.
  pose proof (body_on fw n_taxa st (i :: parent) n outgrp d Hthe Hlen Hpick Hd) as Hb.
  split; [| split].
  - destruct (outgroup_position fw (t st) i parent n outgrp d Hn Hpick Hd)
      as (j & k & l & Hji & Hq & Hleaf & Hname & _ & Hsum).
    exists j, k, l. auto.
  - intros Hgt. rewrite Hgt in Hb.
    eexists. split; [exact Hb |]. split; [reflexivity |].
    intros r Hr.
    apply split_tree_inv in Hr as [(Hsmall & _) | (_ & stf & Hloop & _ & -> & _)]; [lia |].
    rewrite Hl, for_each_app, Hl1 in Hloop. simpl in Hloop. rewrite Hb in Hloop.
    destruct (reread n (fsub d (dist n))) as [[]|e]; [| discriminate].
    simpl in Hloop. apply loop_sub_prefix in Hloop as [k ->]. simpl.
    rewrite !elem_of_app. left. right. by left.
  - intros Hle. rewrite Hle in Hb. unfold split_tree.
    rewrite bool_decide_eq_false_2 by lia.
    rewrite Hl, for_each_app, Hl1. simpl. rewrite Hb. reflexivity.
Qed.

Lemma C5_outgroup_distance_witness :
  ∃ st', body t8_fa 4 true (locals0 t8) [0%nat] = Ok st' ∧
         (λ f, nwk_outgroup f.2) <$> sub (fs st')
         = [Some ("SHOOTOUTGROUP_F", "3.00000")].
Proof.
  destruct (C5_outgroup_distance t8 t8_fa 4 [[]] 0%nat [] [[1%nat]] (locals0 t8)
              (inner 1 [inner 1 [leaf "A" 1; leaf "B" 1];
                        inner 1 [leaf "C" 1; leaf "D" 1]]) "F" (of_Z 4))
    as (_ & Hok & _);
    [reflexivity | reflexivity | reflexivity | reflexivity | vm_compute; discriminate
    | reflexivity | reflexivity |].
  destruct Hok as (st' & Hb & Hsub & _); [reflexivity |].
  exists st'. split; [rewrite Hb; reflexivity |]. rewrite Hsub. reflexivity.
Defined.

(** C5 as stated fails where it says that the branch length of the
    outgroup leaf is strictly positive: in [((A:1,B:1):1,D:0.000001)] with
    target 2 the outgroup [D] of [(A,B)] is at distance [1.000001], more
    than the branch 1 of [(A,B)], the assertion passes, and the difference
    is written as [0.00000]. *)
Lemma C5_branch_written_as_zero :
  ∃ r d,
    split_tree close abcd_fa 2 true = Ok r ∧
    (λ f, nwk_outgroup f.2) <$> sub (written r)
      = [Some ("SHOOTOUTGROUP_D", "0.00000"); Some ("SHOOTOUTGROUP_B", "2.00000")] ∧
    get_distance close [0%nat] "D" = Ok d ∧ fgt d (of_Z 1) = true ∧
    format_0_5f (fsub d (of_Z 1)) = "0.00000".
Proof.
  eexists _, _. split; [vm_compute; reflexivity |].
  split; [reflexivity |]. split; [vm_compute; reflexivity |].
  split; vm_compute; reflexivity.
Qed.

(** Float sums absorb small terms: in
    [((A:1,B:1):1,(C:1e-17,D:1e-17):1e-17)] every branch is positive, the
    distance from [(A,B)] to [D] is summed to [1.0], and the assertion
    fails. *)
Lemma absorbed_branches_fail_the_assertion :
  get_distance faint [0%nat] "D" = Ok (of_Z 1) ∧
  split_tree faint abcd_fa 2 true = Raise AssertionError.
Proof. split; vm_compute; reflexivity. Qed.

(** C8.  A tree with no more leaves than the target is written as the
    single subtree 0, with no alignment, outgroup or supertree, and
    [min(5, len(t))] is returned.  The count returned by any finished call
    is [min(5, leaf_count)] summed over the subtrees written, which for a
    larger tree are the boundary nodes of the traversal; subtrees of 3, 7
    and 5 leaves give 13, as for the sample tree with target 7. *)
Theorem C8_profile_count t0 fw n_taxa q :
  ((len t0 ≤ n_taxa)%Z →
     split_tree t0 fw n_taxa q
     = Ok {| returned := Z.min 5 (len t0);
             written := {| sub := [(0%Z, {| nwk_tree := t0; nwk_outgroup := None |})];
                           msa_sub := [];
                           super := None |} |}) ∧
  (∀ r, split_tree t0 fw n_taxa q = Ok r →
     returned r = profiles (subtrees (written r)) ∧
     ((n_taxa < len t0)%Z →
        subtrees (written r)
        = filter (λ m, (len m ≤ n_taxa)%Z) (traverse_nodes (stop_fn n_taxa) t0)) ∧
     (len <$> subtrees (written r) = [3; 7; 5]%Z → returned r = 13%Z)) ∧
  (∃ r, split_tree t357 t357_fa 7 true = Ok r ∧
        len <$> subtrees (written r) = [3; 7; 5]%Z ∧ returned r = 13%Z).
Proof.
  split; [| split].
  - intros Hl. unfold split_tree. by rewrite bool_decide_eq_true_2.
  - intros r Hr.
    assert (Hsum : returned r = profiles (subtrees (written r))).
    { apply split_tree_inv in Hr as [(_ & ->) | (_ & st & Hloop & -> & Hsub & _)].
      - unfold profiles, subtrees. simpl. lia.
      - unfold subtrees. rewrite Hsub. eapply loop_profile; [exact Hloop | reflexivity]. }
    split; [exact Hsum |]. split; [intros Hbig; by eapply split_subtrees |].
    intros Hsizes. rewrite Hsum. unfold profiles.
    rewrite (list_fmap_compose len (Z.min 5)), Hsizes. reflexivity.
  - eexists. split; [vm_compute; reflexivity |]. split; reflexivity.
Qed.

Lemma C8_profile_count_witness :
  split_tree abcd abcd_fa 4 false
  = Ok {| returned := 4;
          written := {| sub := [(0%Z, {| nwk_tree := abcd; nwk_outgroup := None |})];
                        msa_sub := [];
                        super := None |} |}.
Proof. apply (C8_profile_count abcd abcd_fa 4 false). reflexivity. Defined.

(** ** The branch without outgroup *)

Lemma traverse_valid f root : ∀ n p q,
  node_at root p = Some n → q ∈ traverse_preorder f n p → is_Some (node_at root q).
Proof.
  induction n as [s d cs IH] using TreeNode_ind. intros p q Hp.
  rewrite traverse_preorder_eq. simpl. intros [-> | Hq]%elem_of_cons; [by eexists |].
  destruct (f _); [by apply elem_of_nil in Hq |].
  assert (Hkids : ∀ j c, cs !! j = Some c → node_at root ((0 + j)%nat :: p) = Some c).
  { intros j c Hc. rewrite node_at_cons, Hp. exact Hc. }
  clear Hp. revert Hkids Hq. generalize 0%nat.
  induction IH as [|c cs Hc _ IHcs]; intros i Hkids Hq; simpl in Hq;
    [by apply elem_of_nil in Hq |].
  apply elem_of_app in Hq as [Hq | Hq].
  - eapply Hc; [| exact Hq]. specialize (Hkids 0%nat c eq_refl).
    by rewrite Nat.add_0_r in Hkids.
  - eapply IHcs; [| exact Hq]. intros j c' Hc'. specialize (Hkids (S j) c' Hc').
    by rewrite Nat.add_succ_r in Hkids.
Qed.

(** With outgroup preservation off the loop passes the nodes above the
    target size and raises at the first boundary node. *)
Lemma loop_off t0 fw n_taxa : ∀ l,
  (∀ p, p ∈ l → is_Some (node_at t0 p)) →
  for_each (body fw n_taxa false) l (locals0 t0)
  = match filter (λ m, (len m ≤ n_taxa)%Z) (omap (node_at t0) l) with
    | [] => Ok (locals0 t0)
    | _ :: _ => Raise (UnboundLocalError "outfile")
    end.
Proof.
  induction l as [|p l IH]; intros Hval; [reflexivity |].
  destruct (Hval p) as [n Hn]; [left |]. simpl. rewrite Hn.
  destruct (decide (len n ≤ n_taxa)%Z) as [Hl|Hl].
  - rewrite filter_cons_True by exact Hl.
    rewrite (body_off fw n_taxa (locals0 t0) p n); [reflexivity | | exact Hl].
    by apply the_node_Ok.
  - rewrite filter_cons_False by exact Hl.
    rewrite (body_skip fw n_taxa false (locals0 t0) p n); [| by apply the_node_Ok | lia].
    simpl. apply IH. intros r Hr. apply Hval. by right.
Qed.

(** With outgroup preservation off, a target of at least 1 and a tree
    with more leaves than the target, the call raises at its first
    boundary node, whatever the tree. *)
Lemma outgroup_off_always_raises t0 fw n_taxa :
  (1 ≤ n_taxa)%Z → (n_taxa < len t0)%Z →
  split_tree t0 fw n_taxa false = Raise (UnboundLocalError "outfile").
Proof.
  intros H1 Hbig. unfold split_tree. rewrite bool_decide_eq_false_2 by lia.
  rewrite loop_off.
  - rewrite (traverse_omap _ t0 t0 [] (node_at_nil t0)).
    pose proof (boundary_leaves n_taxa H1 t0) as Hcover.
    destruct (filter _ _) as [|m ms]; [| reflexivity].
    simpl in Hcover. pose proof (len_pos t0) as Hpos. unfold len in Hpos.
    rewrite <- Hcover in Hpos. simpl in Hpos. lia.
  - intros p Hp. eapply traverse_valid; [apply node_at_nil | exact Hp].
Qed.

(** ** The alignment files *)

Lemma WriteSeqsToFasta_names fw names g s :
  (g, s) ∈ WriteSeqsToFasta fw names → g ∈ names ∧ SeqLists fw !! g = Some s.
Proof.
  unfold WriteSeqsToFasta. intros Hin.
  apply list_elem_of_omap in Hin as (g' & Hg' & Hs).
  destruct (SeqLists fw !! g') as [s'|] eqn:E; [| discriminate].
  simpl in Hs. injection Hs as <- <-. auto.
Qed.

Lemma loop_alignments fw n_taxa q : ∀ l st st',
  for_each (body fw n_taxa q) l st = Ok st' →
  (λ x, x.2) <$> msa_sub (fs st)
    = (λ n, WriteSeqsToFasta fw (get_leaf_names n)) <$> subtrees (fs st) →
  (λ x, x.2) <$> msa_sub (fs st')
    = (λ n, WriteSeqsToFasta fw (get_leaf_names n)) <$> subtrees (fs st').
Proof.
  induction l as [|p l IH]; intros st st' Hrun Hinv; simpl in Hrun.
  - by injection Hrun as <-.
  - destruct (body fw n_taxa q st p) as [st1|e] eqn:Hb; [| discriminate].
    simpl in Hrun. apply IH in Hrun; [exact Hrun |].
    apply body_inv in Hb as (n & _ & [(_ & ->) | (_ & _ & outgrp & d & _ & _ & _ & ->)]);
      [exact Hinv |].
    rewrite commit_subtrees. simpl. rewrite !fmap_app, Hinv. reflexivity.
Qed.

(** In a decomposition that ran to its end, the alignment file of each subtree holds sequences of leaves of that
    subtree only; the outgroup gene, a leaf of a sister clade, is not
    written unless a leaf of the subtree has the same name. *)
Lemma alignment_is_subtree_only t0 fw n_taxa q r :
  (n_taxa < len t0)%Z → split_tree t0 fw n_taxa q = Ok r →
  (λ x, x.2) <$> msa_sub (written r)
    = (λ n, WriteSeqsToFasta fw (get_leaf_names n)) <$> subtrees (written r) ∧
  ∀ n g s, n ∈ subtrees (written r) →
    (g, s) ∈ WriteSeqsToFasta fw (get_leaf_names n) → g ∈ get_leaf_names n.
Proof.
  intros Hbig Hrun. split.
  - apply split_tree_inv in Hrun as [(Hl & _) | (_ & st & Hloop & _ & Hsub & Hmsa)]; [lia |].
    unfold subtrees. rewrite Hsub, Hmsa.
    eapply loop_alignments; [exact Hloop | reflexivity].
  - intros n g s _ Hin. by apply WriteSeqsToFasta_names in Hin as [Hg _].
Qed.

(** * Further properties of the decomposer *)

(** ** Numbering and pairing of the files *)

Lemma seq_snoc_Z (k : nat) :
  Z.of_nat <$> seq 0 (S k) = (Z.of_nat <$> seq 0 k) ++ [Z.of_nat k].
Proof. by rewrite seq_S, fmap_app. Qed.

Lemma loop_numbering fw n_taxa q : ∀ l st st',
  for_each (body fw n_taxa q) l st = Ok st' →
  i_part st = Z.of_nat (length (sub (fs st))) ∧
  (sub (fs st)).*1 = Z.of_nat <$> seq 0 (length (sub (fs st))) ∧
  msa_sub (fs st) = alignment_of fw <$> sub (fs st) →
  i_part st' = Z.of_nat (length (sub (fs st'))) ∧
  (sub (fs st')).*1 = Z.of_nat <$> seq 0 (length (sub (fs st'))) ∧
  msa_sub (fs st') = alignment_of fw <$> sub (fs st').
Proof.
  induction l as [|p l IH]; intros st st' Hrun Hinv; simpl in Hrun.
  - by injection Hrun as <-.
  - destruct (body fw n_taxa q st p) as [st1|e] eqn:Hb; [| discriminate].
    simpl in Hrun. apply IH in Hrun; [exact Hrun |].
    apply body_inv in Hb as (n & _ & [(_ & ->) | (_ & _ & outgrp & d & _ & _ & _ & ->)]);
      [exact Hinv |].
    destruct Hinv as (Hi & Hsub & Hmsa). simpl.
    rewrite length_app, Nat.add_1_r, !fmap_app, seq_snoc_Z, Hsub, Hmsa, Hi. simpl.
    split; [lia |]. split; reflexivity.
Qed.

(** The subtree files of a call that returns are numbered 0, 1, 2, ... in
    the order in which they were written. *)
Theorem subtree_files_are_numbered t0 fw n_taxa q r :
  split_tree t0 fw n_taxa q = Ok r →
  (sub (written r)).*1 = Z.of_nat <$> seq 0 (length (sub (written r))).
Proof.
  intros Hrun.
  apply split_tree_inv in Hrun as [(_ & ->) | (_ & st & Hloop & _ & -> & _)];
    [reflexivity |].
  eapply loop_numbering in Hloop as (_ & Hsub & _); [exact Hsub |].
  simpl. auto.
Qed.

Lemma subtree_files_are_numbered_witness :
  ∃ r, split_tree t357 t357_fa 7 true = Ok r ∧
       (sub (written r)).*1 = [0; 1; 2]%Z.
Proof.
  destruct (split_tree t357 t357_fa 7 true) as [r|e] eqn:E;
    [| vm_compute in E; discriminate].
  exists r. split; [reflexivity |].
  rewrite (subtree_files_are_numbered t357 t357_fa 7 true r E).
  revert E. vm_compute. intros [= <-]. reflexivity.
Defined.

(** The outgroup of a boundary node is not a leaf of the node itself: its
    name is that of one node only, which is below a sister. *)
Lemma outgroup_not_below fw root i parent n outgrp d :
  node_at root (i :: parent) = Some n →
  pick_outgroup fw root (i :: parent) = Ok outgrp →
  get_distance root (i :: parent) outgrp = Ok d →
  outgrp ∉ get_leaf_names n.
Proof.
  intros Hn Hpick Hd Hin.
  destruct (outgroup_position fw root i parent n outgrp d Hn Hpick Hd)
    as (j & k & l & Hji & _ & _ & _ & Htp & _).
  apply leaf_name_position in Hin as (ix & l' & Hl' & _ & Hname).
  assert (Hq : node_at root (reverse ix ++ i :: parent) = Some l').
  { rewrite node_at_app, Hn. simpl. unfold node_at. by rewrite reverse_involutive. }
  pose proof (translate_node_unique _ _ _ _ _ Htp Hq Hname) as Heq.
  eapply (sibling_not_above i j parent (reverse ix ++ i :: parent) (k ++ j :: parent));
    [congruence | by apply suffix_app_r | by apply suffix_app_r | by rewrite Heq].
Qed.

Lemma loop_outgroups fw n_taxa q : ∀ l st st',
  for_each (body fw n_taxa q) l st = Ok st' →
  Forall outgroup_apart (sub (fs st)) → Forall outgroup_apart (sub (fs st')).
Proof.
  induction l as [|p l IH]; intros st st' Hrun Hinv; simpl in Hrun.
  - by injection Hrun as <-.
  - destruct (body fw n_taxa q st p) as [st1|e] eqn:Hb; [| discriminate].
    simpl in Hrun. apply IH in Hrun; [exact Hrun |].
    apply body_inv in Hb
      as (n & Hn & [(_ & ->) | (_ & _ & outgrp & d & Hpick & Hd & _ & ->)]);
      [exact Hinv |].
    simpl. apply Forall_app. split; [exact Hinv |]. constructor; [| constructor].
    exists outgrp, (format_0_5f (fsub d (dist n))). split; [reflexivity |]. simpl.
    destruct p as [|i parent]; [discriminate |].
    by eapply outgroup_not_below.
Qed.

(** When a tree larger than the target has been decomposed, each subtree
    file has an outgroup leaf, named after a gene that is not a leaf of
    the subtree, and an alignment file of the same number, written from
    the leaf names of the subtree: no sequence is written under the name
    of the outgroup. *)
Theorem alignment_never_holds_the_outgroup t0 fw n_taxa q r :
  (n_taxa < len t0)%Z → split_tree t0 fw n_taxa q = Ok r →
  ∀ k i x, sub (written r) !! k = Some (i, x) →
    ∃ outgrp l,
      nwk_outgroup x = Some ("SHOOTOUTGROUP_" +:+ outgrp, l) ∧
      (outgrp ∉ get_leaf_names (nwk_tree x)) ∧
      msa_sub (written r) !! k
      = Some (i, WriteSeqsToFasta fw (get_leaf_names (nwk_tree x))) ∧
      ∀ s, (outgrp, s) ∉ WriteSeqsToFasta fw (get_leaf_names (nwk_tree x)).
Proof.
  intros Hbig Hrun k i x Hk.
  apply split_tree_inv in Hrun as [(Hl & _) | (_ & st & Hloop & _ & Hsub & Hmsa)]; [lia |].
  pose proof (loop_outgroups _ _ _ _ _ _ Hloop (Forall_nil_2 _)) as Hout.
  eapply loop_numbering in Hloop as (_ & _ & Hpair); [| simpl; auto].
  rewrite Hsub in Hk. rewrite Hmsa, Hpair.
  eapply Forall_lookup_1 in Hout as (outgrp & l & Hx & Hnot); [| exact Hk].
  simpl in Hx, Hnot. exists outgrp, l. split; [exact Hx |]. split; [exact Hnot |].
  split.
  - rewrite list_lookup_fmap, Hk. reflexivity.
  - intros s Hin. by apply WriteSeqsToFasta_names in Hin as [Hg _].
Qed.

Lemma alignment_never_holds_the_outgroup_witness :
  ∃ r outgrp l,
    split_tree t8 t8_fa 4 true = Ok r ∧
    (nwk_outgroup <$> (snd <$> sub (written r) !! 0%nat))
    = Some (Some ("SHOOTOUTGROUP_" +:+ outgrp, l)) ∧
    ∀ s, (outgrp, s) ∉ default [] (snd <$> msa_sub (written r) !! 0%nat).
Proof.
  destruct (split_tree t8 t8_fa 4 true) as [r|e] eqn:E;
    [| vm_compute in E; discriminate].
  destruct (sub (written r) !! 0%nat) as [[i x]|] eqn:Ex;
    [| exfalso; revert Ex; vm_compute in E; injection E as <-; discriminate].
  destruct (alignment_never_holds_the_outgroup t8 t8_fa 4 true r eq_refl E 0%nat i x Ex)
    as (outgrp & l & Hx & _ & Hmsa & Hnot).
  exists r, outgrp, l. split; [reflexivity |]. rewrite Ex, Hmsa. split.
  - change (Some (nwk_outgroup x) = Some (Some ("SHOOTOUTGROUP_" +:+ outgrp, l))).
    by rewrite Hx.
  - exact Hnot.
Defined.

(** ** The gene chosen as outgroup *)

(** The outgroup is a leaf of a sister clade.  When it is a gene, no gene
    of the sister clades has fewer gaps and those listed before it have
    more; and it is a gene as soon as one gene of the sister clades has
    fewer than [9e99] gaps. *)
Theorem outgroup_has_fewest_gaps fw root i parent n_up outgrp :
  node_at root parent = Some n_up →
  pick_outgroup fw root (i :: parent) = Ok outgrp →
  let sister_genes := flat_map get_leaf_names (delete i (children n_up)) in
  ∃ k, sister_genes !! k = Some outgrp ∧
    (String.prefix "PART." outgrp = false →
       ∃ c, d_ngaps fw !! outgrp = Some c ∧
         (∀ g c', g ∈ sister_genes → String.prefix "PART." g = false →
            d_ngaps fw !! g = Some c' → (c ≤ c')%Z) ∧
         (∀ j g c', (j < k)%nat → sister_genes !! j = Some g →
            String.prefix "PART." g = false →
            d_ngaps fw !! g = Some c' → (c < c')%Z)) ∧
    (∀ g c', g ∈ sister_genes → String.prefix "PART." g = false →
       d_ngaps fw !! g = Some c' → (c' < f9e99)%Z →
       String.prefix "PART." outgrp = false).
Proof.
  intros Hup Hpick sister_genes.
  destruct (pick_outgroup_spec fw root i parent n_up outgrp Hup Hpick)
    as (k & x & Hk & Hx & Hmin & Hfirst).
  fold sister_genes in Hk, Hmin, Hfirst. simpl in Hx, Hmin, Hfirst.
  exists k. split; [exact Hk |]. split.
  - intros Hgene. rewrite Hgene in Hx. exists x. split; [exact Hx |]. split.
    + intros g c' Hg Hpg Hc'. destruct (Hmin g Hg) as (y & Hy & Hle).
      rewrite Hpg, Hc' in Hy. by injection Hy as <-.
    + intros j g c' Hj Hg Hpg Hc'.
      assert (Hin : g ∈ sister_genes) by (eapply list_elem_of_lookup_2; exact Hg).
      destruct (Hmin g Hin) as (y & Hy & Hle).
      rewrite Hpg, Hc' in Hy. injection Hy as <-.
      specialize (Hfirst j g Hj Hg). rewrite Hpg, Hc' in Hfirst.
      assert (c' ≠ x) by congruence. lia.
  - intros g c' Hg Hpg Hc' Hlt.
    destruct (String.prefix "PART." outgrp) eqn:Hpo; [| reflexivity].
    injection Hx as <-. destruct (Hmin g Hg) as (y & Hy & Hle).
    rewrite Hpg, Hc' in Hy. injection Hy as <-. lia.
Qed.

Lemma outgroup_has_fewest_gaps_witness :
  ∃ k,
    flat_map get_leaf_names
      (delete 2%nat [leaf "PART.0-1_genes" 1; leaf "B" 1;
                     inner 1 [leaf "C" 1; leaf "D" 1]]) !! k = Some "B".
Proof.
  destruct (outgroup_has_fewest_gaps t8_fa
              (inner 0 [leaf "PART.0-1_genes" 1; leaf "B" 1;
                        inner 1 [leaf "C" 1; leaf "D" 1]])
              2%nat []
              (inner 0 [leaf "PART.0-1_genes" 1; leaf "B" 1;
                        inner 1 [leaf "C" 1; leaf "D" 1]])
              "B")
    as (k & Hk & _); [reflexivity | reflexivity |].
  exists k. exact Hk.
Defined.

Lemma mapM_raise {A B : Type} (f : A → result B) (l1 l2 : list A) (a : A) (e : exn) :
  Forall (λ x, ∃ y, f x = Ok y) l1 → f a = Raise e →
  mapM f (l1 ++ a :: l2) = Raise e.
Proof.
  intros Hl1 Ha. induction Hl1 as [|x l1 [y Hy] _ IH]; simpl.
  - by rewrite Ha.
  - rewrite Hy. simpl. by rewrite IH.
Qed.

(** A gene of a sister clade that the alignment does not have makes the
    choice raise [KeyError] with the first such gene. *)
Theorem outgroup_choice_raises_KeyError fw root i parent n_up l1 g l2 :
  node_at root parent = Some n_up →
  flat_map get_leaf_names (delete i (children n_up)) = l1 ++ g :: l2 →
  Forall (λ h, String.prefix "PART." h = true ∨ is_Some (SeqLists fw !! h)) l1 →
  String.prefix "PART." g = false → SeqLists fw !! g = None →
  pick_outgroup fw root (i :: parent) = Raise (KeyError g).
Proof.
  intros Hup Hgenes Hl1 Hpg Hg. unfold pick_outgroup.
  rewrite (proj2 (the_node_Ok _ _ _) Hup). simpl. rewrite Hgenes.
  erewrite mapM_raise; [reflexivity | |].
  - eapply Forall_impl; [exact Hl1 |]. intros h [Hp | [s Hs]]; simpl.
    + rewrite Hp. by eexists.
    + destruct (String.prefix "PART." h); [by eexists |].
      unfold d_ngaps. rewrite lookup_fmap, Hs. by eexists.
  - simpl. rewrite Hpg. unfold d_ngaps. by rewrite lookup_fmap, Hg.
Qed.

Lemma outgroup_choice_raises_KeyError_witness :
  pick_outgroup (fasta [("A", "MK-L"); ("B", "MKAL"); ("D", "MKA-")]) abcd [0%nat]
  = Raise (KeyError "C").
Proof.
  apply (outgroup_choice_raises_KeyError
           (fasta [("A", "MK-L"); ("B", "MKAL"); ("D", "MKA-")])
           abcd 0%nat [] abcd [] "C" ["D"]);
    [reflexivity | reflexivity | constructor | reflexivity | reflexivity].
Defined.

Lemma outgroup_off_always_raises_witness :
  split_tree t8 t8_fa 3 false = Raise (UnboundLocalError "outfile").
Proof. apply outgroup_off_always_raises; [lia | reflexivity]. Defined.

(** ** Bounds on the count returned *)

Lemma boundary_cover t0 fw n_taxa q r :
  (1 ≤ n_taxa)%Z → (n_taxa < len t0)%Z → split_tree t0 fw n_taxa q = Ok r →
  flat_map get_leaves (subtrees (written r)) = get_leaves t0 ∧
  Forall (λ n, (len n ≤ n_taxa)%Z) (subtrees (written r)).
Proof.
  intros H1 Hbig Hrun.
  rewrite (split_subtrees _ _ _ _ _ Hbig Hrun), (boundary_leaves n_taxa H1).
  split; [reflexivity |].
  apply Forall_forall. intros n Hn. by apply list_elem_of_filter in Hn as [Hl _].
Qed.

Lemma leaves_sum ns :
  Z.of_nat (length (flat_map get_leaves ns)) = foldr Z.add 0%Z (len <$> ns).
Proof.
  induction ns as [|n ns IH]; [reflexivity |].
  simpl flat_map. rewrite length_app, Nat2Z.inj_add, IH. reflexivity.
Qed.

Lemma profiles_bounds ns :
  (Z.of_nat (length ns) ≤ profiles ns)%Z ∧
  (profiles ns ≤ 5 * Z.of_nat (length ns))%Z ∧
  (profiles ns ≤ foldr Z.add 0 (len <$> ns))%Z.
Proof.
  unfold profiles. induction ns as [|n ns IH]; [simpl; lia |].
  rewrite !fmap_cons. cbn [foldr length]. pose proof (len_pos n). lia.
Qed.

(** When a tree with more leaves than a target of at least 1 has been
    decomposed, there are at least two subtrees, and the count returned is
    at least their number, at most five times their number and at most the
    number of leaves of the tree. *)
Theorem profile_count_bounds t0 fw n_taxa q r :
  (1 ≤ n_taxa)%Z → (n_taxa < len t0)%Z → split_tree t0 fw n_taxa q = Ok r →
  let k := Z.of_nat (length (sub (written r))) in
  (2 ≤ k)%Z ∧ (k ≤ returned r)%Z ∧ (returned r ≤ 5 * k)%Z ∧
  (returned r ≤ len t0)%Z.
Proof.
  intros H1 Hbig Hrun k.
  destruct (boundary_cover t0 fw n_taxa q r H1 Hbig Hrun) as (Hcover & Hsmall).
  assert (Hret : returned r = profiles (subtrees (written r))).
  { apply split_tree_inv in Hrun as [(Hl & _) | (_ & st & Hloop & -> & Hsub & _)]; [lia |].
    unfold subtrees. rewrite Hsub. eapply loop_profile; [exact Hloop | reflexivity]. }
  assert (Hk : k = Z.of_nat (length (subtrees (written r)))).
  { unfold k, subtrees. by rewrite length_fmap. }
  assert (Hsum : foldr Z.add 0%Z (len <$> subtrees (written r)) = len t0).
  { rewrite <- leaves_sum, Hcover. reflexivity. }
  destruct (profiles_bounds (subtrees (written r))) as (Hlo & Hhi & Hle).
  rewrite Hret, Hk. repeat split; try lia.
  destruct (subtrees (written r)) as [|n1 [|n2 ns]]; simpl in *.
  - pose proof (len_pos t0). lia.
  - inversion Hsmall; subst. lia.
  - lia.
Qed.

Lemma profile_count_bounds_witness :
  ∃ r, split_tree t357 t357_fa 7 true = Ok r ∧
       (2 ≤ Z.of_nat (length (sub (written r))))%Z ∧ (returned r ≤ len t357)%Z.
Proof.
  destruct (split_tree t357 t357_fa 7 true) as [r|e] eqn:E;
    [| vm_compute in E; discriminate].
  exists r. split; [reflexivity |].
  destruct (profile_count_bounds t357 t357_fa 7 true r) as (H2 & _ & _ & Hle);
    [lia | reflexivity | exact E |].
  split; [exact H2 | exact Hle].
Defined.

(** ** A target below 1 *)

Lemma mapM_fmap_Ok {A B : Type} (f : A → result B) (g : A → B) (l : list A) :
  (∀ x, x ∈ l → f x = Ok (g x)) → mapM f l = Ok (g <$> l).
Proof.
  induction l as [|x l IH]; intros Hall; [reflexivity |]. simpl.
  rewrite (Hall x) by left. simpl. rewrite IH; [reflexivity |].
  intros y Hy. apply Hall. by right.
Qed.

Lemma omap_id_Some {A : Type} (l : list A) : omap id (Some <$> l) = l.
Proof.
  induction l as [|x l IH]; [reflexivity |]. rewrite fmap_cons.
  change (omap id (Some x :: (Some <$> l))) with (x :: omap id (Some <$> l)).
  by rewrite IH.
Qed.

(** The second pass leaves a tree without partition names as it is. *)
Lemma remove_subtrees_id n_taxa : ∀ fuel n,
  (height n ≤ fuel)%nat → part_free n = true →
  remove_subtrees fuel n_taxa n = Ok (Some n).
Proof.
  induction fuel as [|fuel IH]; intros n Hh Hpf; [destruct n; simpl in Hh; lia |].
  destruct n as [s d cs]. simpl in Hpf. apply andb_prop in Hpf as [Hs Hcs].
  apply negb_true_iff in Hs. simpl. rewrite Hs.
  destruct (stop_fn n_taxa _); [reflexivity |].
  rewrite (mapM_fmap_Ok _ Some).
  - simpl. by rewrite omap_id_Some.
  - intros c Hc. apply IH.
    + pose proof (height_child (Node s d cs) c Hc) as Hlt. lia.
    + rewrite forallb_forall in Hcs. apply Hcs. by apply list_elem_of_In.
Qed.

Lemma loop_no_boundary fw n_taxa q st : ∀ l,
  (n_taxa ≤ 0)%Z → (∀ p, p ∈ l → is_Some (node_at (t st) p)) →
  for_each (body fw n_taxa q) l st = Ok st.
Proof.
  induction l as [|p l IH]; intros H0 Hval; [reflexivity |].
  destruct (Hval p) as [n Hn]; [left |]. simpl.
  rewrite (body_skip fw n_taxa q st p n); [| by apply the_node_Ok |].
  - simpl. apply IH; [exact H0 |]. intros r Hr. apply Hval. by right.
  - pose proof (len_pos n). lia.
Qed.

(** With a target of 0 or less no node is a boundary node: for a tree
    without partition names the call writes no subtree and writes the tree
    itself as supertree, with or without outgroup.  It then raises when the
    root has two children that are both leaves, which cannot be unrooted,
    and returns 0 otherwise. *)
Theorem target_below_one_writes_no_subtree t0 fw n_taxa q :
  (n_taxa ≤ 0)%Z → part_free t0 = true →
  ((∃ a b, children t0 = [a; b] ∧ children a = [] ∧ children b = []) →
     split_tree t0 fw n_taxa q
     = Raise (TreeError "Cannot unroot a tree with only two leaves")) ∧
  (¬ (∃ a b, children t0 = [a; b] ∧ children a = [] ∧ children b = []) →
     split_tree t0 fw n_taxa q
     = Ok {| returned := 0;
             written := {| sub := []; msa_sub := []; super := Some t0 |} |}).
Proof.
  intros H0 Hpf.
  assert (Hrun : split_tree t0 fw n_taxa q
                 = unroot t0 ≫= λ _,
                   Ok {| returned := 0;
                         written := {| sub := []; msa_sub := []; super := Some t0 |} |}).
  { unfold split_tree.
    rewrite bool_decide_eq_false_2 by (pose proof (len_pos t0); lia).
    rewrite loop_no_boundary; [| exact H0 |].
    - simpl. rewrite remove_subtrees_id; [reflexivity | lia | exact Hpf].
    - intros p Hp. eapply traverse_valid; [apply node_at_nil | exact Hp]. }
  rewrite Hrun. unfold unroot. split.
  - intros (a & b & -> & Ha & Hb). unfold is_leaf. rewrite Ha, Hb. reflexivity.
  - intros Hno. destruct (children t0) as [|a [|b [|c cs]]]; try reflexivity.
    unfold is_leaf. destruct (children a) eqn:Ha; [| reflexivity].
    destruct (children b) eqn:Hb; [| reflexivity].
    destruct Hno. by exists a, b.
Qed.

Lemma target_below_one_writes_no_subtree_witness :
  split_tree ab abcd_fa 0 true
  = Raise (TreeError "Cannot unroot a tree with only two leaves") ∧
  split_tree t8 t8_fa (-3) false
  = Ok {| returned := 0;
          written := {| sub := []; msa_sub := []; super := Some t8 |} |}.
Proof.
  split.
  - apply (target_below_one_writes_no_subtree ab abcd_fa 0 true); [lia | reflexivity |].
    eexists _, _. repeat split; reflexivity.
  - apply (target_below_one_writes_no_subtree t8 t8_fa (-3) false); [lia | reflexivity |].
    intros (a & b & [= <- <-] & Ha & _). discriminate.
Defined.

(** * Further properties of shoot/__main__.py *)

(** ** The species of a gene *)

Lemma split_spec (sep : ascii) : ∀ s,
  ∃ w ws, split sep s = w :: ws ∧
    Forall (λ x, count sep x = 0%Z) (w :: ws) ∧
    String.concat (String sep "") (w :: ws) = s.
Proof.
  induction s as [|a s IH]; simpl.
  - exists "", []. repeat split; repeat constructor.
  - destruct IH as (w & ws & Hs & Hall & Hjoin).
    destruct (Ascii.eqb a sep) eqn:Ea.
    + apply Ascii.eqb_eq in Ea as ->. exists "", (split sep s). split; [reflexivity |].
      rewrite Hs. split; [by constructor |]. rewrite <- Hs. simpl. rewrite Hs.
      change (String sep (String.concat (String sep "") (w :: ws)) = String sep s).
      by rewrite Hjoin.
    + rewrite Hs. exists (String a w), ws. split; [reflexivity |].
      apply Forall_cons in Hall as [Hw Hws]. split.
      * constructor; [| exact Hws]. simpl. rewrite Ea. lia.
      * destruct ws as [|w2 ws]; [simpl in *; by rewrite Hjoin |].
        change (String a (String.concat (String sep "") (w :: w2 :: ws)) = String a s).
        by rewrite Hjoin.
Qed.

Lemma count_app c s1 s2 : count c (s1 +:+ s2) = (count c s1 + count c s2)%Z.
Proof. induction s1 as [|a s1 IH]; simpl; [reflexivity |]. rewrite IH. lia. Qed.

Lemma count_nonneg c s : (0 ≤ count c s)%Z.
Proof. induction s as [|a s IH]; simpl; [lia |]. destruct (Ascii.eqb a c); lia. Qed.

Lemma split_no_sep sep s : count sep s = 0%Z → split sep s = [s].
Proof.
  induction s as [|a s IH]; simpl; [reflexivity |].
  pose proof (count_nonneg sep s). destruct (Ascii.eqb a sep); [lia |].
  intros Hc. rewrite IH by lia. reflexivity.
Qed.

Lemma split_at_sep sep w s :
  count sep w = 0%Z → split sep (w +:+ String sep s) = w :: split sep s.
Proof.
  induction w as [|a w IH]; simpl.
  - intros _. by rewrite Ascii.eqb_refl.
  - pose proof (count_nonneg sep w). destruct (Ascii.eqb a sep); [lia |].
    intros Hc. rewrite IH by lia. reflexivity.
Qed.

Lemma prefix_app s1 s2 : String.prefix s1 (s1 +:+ s2) = true.
Proof.
  induction s1 as [|a s1 IH]; simpl; [by destruct s2 |].
  destruct (ascii_dec a a); [exact IH | done].
Qed.

Lemma string_app_assoc (s1 s2 s3 : string) : (s1 +:+ s2) +:+ s3 = s1 +:+ (s2 +:+ s3).
Proof.
  induction s1 as [|a s1 IH]; [reflexivity |].
  change (String a ((s1 +:+ s2) +:+ s3) = String a (s1 +:+ (s2 +:+ s3))).
  by rewrite IH.
Qed.

Lemma string_app_nil_r (s : string) : s +:+ "" = s.
Proof.
  induction s as [|a s IH]; [reflexivity |].
  change (String a (s +:+ "") = String a s). by rewrite IH.
Qed.

(** The species of a gene is the name up to its second underscore: the
    name itself when it has at most one underscore; otherwise the part of
    the name with exactly one underscore that an underscore follows in the
    name.  The species of a species is that species. *)
Theorem species_ends_at_second_underscore (gene : string) :
  ((count "_" gene ≤ 1)%Z → gene_to_species gene = gene) ∧
  ((2 ≤ count "_" gene)%Z →
     count "_" (gene_to_species gene) = 1%Z ∧
     ∃ rest, gene = gene_to_species gene +:+ "_" +:+ rest) ∧
  gene_to_species (gene_to_species gene) = gene_to_species gene.
Proof.
  unfold gene_to_species.
  destruct (split_spec "_" gene) as (w & ws & Hs & Hall & Hjoin).
  rewrite Hs. apply Forall_cons in Hall as [Hw Hws].
  destruct ws as [|w2 ws].
  - simpl in Hjoin. subst w. simpl. rewrite Hs. simpl.
    split; [done |]. split; [lia | done].
  - apply Forall_cons in Hws as [Hw2 Hws'].
    assert (Hidem : String.concat "_" (take 2 (split "_" (w +:+ String "_" w2)))
                    = w +:+ String "_" w2).
    { rewrite (split_at_sep _ _ _ Hw), (split_no_sep _ _ Hw2). reflexivity. }
    assert (Hcount : count "_" (w +:+ String "_" w2) = 1%Z).
    { rewrite count_app. simpl. lia. }
    change (String.concat "_" (take 2 (w :: w2 :: ws))) with (w +:+ String "_" w2).
    split; [| split; [| exact Hidem]].
    + intros Hle. rewrite <- Hjoin. destruct ws as [|w3 ws]; [reflexivity |].
      exfalso. rewrite <- Hjoin in Hle.
      change (String.concat "_" (w :: w2 :: w3 :: ws))
        with (w +:+ String "_" (w2 +:+ String "_" (String.concat "_" (w3 :: ws)))) in Hle.
      generalize dependent (String.concat "_" (w3 :: ws)). intros rest Hle.
      rewrite count_app in Hle. simpl in Hle. rewrite count_app in Hle. simpl in Hle.
      pose proof (count_nonneg "_" rest). lia.
    + intros H2. split; [exact Hcount |]. rewrite <- Hjoin in H2 |- *.
      destruct ws as [|w3 ws].
      { change (String.concat "_" [w; w2]) with (w +:+ String "_" w2) in H2.
        rewrite Hcount in H2. lia. }
      exists (String.concat "_" (w3 :: ws)).
      change (String.concat "_" (w :: w2 :: w3 :: ws))
        with (w +:+ String "_" (w2 +:+ String "_" (String.concat "_" (w3 :: ws)))).
      change ("_" +:+ String.concat "_" (w3 :: ws))
        with (String "_" (String.concat "_" (w3 :: ws))).
      by rewrite string_app_assoc.
Qed.

Lemma species_ends_at_second_underscore_witness :
  count "_" (gene_to_species "homo_sapiens_GENE1") = 1%Z ∧
  ∃ rest, "homo_sapiens_GENE1" = gene_to_species "homo_sapiens_GENE1" +:+ "_" +:+ rest.
Proof.
  destruct (species_ends_at_second_underscore "homo_sapiens_GENE1") as (_ & H2 & _).
  apply H2. vm_compute. discriminate.
Defined.

(** ** The rows of the ortholog file *)

Lemma string_compare_refl s : String.compare s s = Eq.
Proof.
  induction s as [|a s IH]; simpl; [reflexivity |].
  unfold Ascii.compare. by rewrite N.compare_refl.
Qed.

Lemma string_lt_trans : ∀ a b c,
  String.compare a b = Lt → String.compare b c = Lt → String.compare a c = Lt.
Proof.
  induction a as [|x a IH]; intros [|y b] [|z c]; simpl; try discriminate; auto.
  unfold Ascii.compare.
  destruct (N.compare_spec (N_of_ascii x) (N_of_ascii y)) as [Hxy|Hxy|Hxy];
    destruct (N.compare_spec (N_of_ascii y) (N_of_ascii z)) as [Hyz|Hyz|Hyz];
    try discriminate; intros Hab Hbc.
  - rewrite <- Hxy in Hyz. rewrite Hyz, N.compare_refl. by apply (IH b).
  - rewrite Hxy. by apply N.compare_lt_iff in Hyz as ->.
  - rewrite <- Hyz. by apply N.compare_lt_iff in Hxy as ->.
  - assert (Hxz : (N_of_ascii x < N_of_ascii z)%N) by lia.
    by apply N.compare_lt_iff in Hxz as ->.
Qed.

Lemma string_leb_cases a b :
  String.leb a b = true ↔ a = b ∨ String.compare a b = Lt.
Proof.
  unfold String.leb. destruct (String.compare a b) eqn:E; split; intros H; auto.
  - left. by apply String.compare_eq_iff.
  - discriminate.
  - destruct H as [-> | H]; [by rewrite string_compare_refl in E | discriminate].
Qed.

Lemma string_leb_trans a b c :
  String.leb a b = true → String.leb b c = true → String.leb a c = true.
Proof.
  rewrite !string_leb_cases. intros [-> | Hab] [-> | Hbc]; auto.
  right. by eapply string_lt_trans.
Qed.

Lemma insert_sorted_perm x l : insert_sorted x l ≡ₚ x :: l.
Proof.
  induction l as [|y l IH]; simpl; [reflexivity |].
  destruct (String.leb x y); [reflexivity |]. rewrite IH. apply Permutation_swap.
Qed.

Lemma sorted_perm l : sorted l ≡ₚ l.
Proof.
  unfold sorted. induction l as [|x l IH]; simpl; [reflexivity |].
  by rewrite insert_sorted_perm, IH.
Qed.

Lemma insert_sorted_sorted x l :
  StronglySorted (λ a b, String.leb a b = true) l →
  StronglySorted (λ a b, String.leb a b = true) (insert_sorted x l).
Proof.
  induction 1 as [|y l Hl IH Hy]; simpl; [repeat constructor |].
  destruct (String.leb x y) eqn:E.
  - constructor; [by constructor |]. constructor; [exact E |].
    eapply Forall_impl; [exact Hy |]. intros z Hz. by eapply string_leb_trans.
  - constructor; [exact IH |].
    rewrite (Forall_forall _ (insert_sorted x l)). intros z Hz.
    rewrite insert_sorted_perm in Hz. apply elem_of_cons in Hz as [-> | Hz].
    + destruct (String.leb_total x y) as [H | H]; congruence.
    + by eapply Forall_forall in Hy.
Qed.

Lemma sorted_sorted l : StronglySorted (λ a b, String.leb a b = true) (sorted l).
Proof.
  unfold sorted. induction l as [|x l IH]; simpl; [constructor |].
  by apply insert_sorted_sorted.
Qed.

(** [sorted] puts names that differ in strictly ascending order. *)
Lemma sorted_ascending l :
  NoDup l → StronglySorted (λ a b, String.ltb a b = true) (sorted l).
Proof.
  intros Hnd. rewrite <- sorted_perm in Hnd.
  induction (sorted_sorted l) as [|x l' Hl IH Hx]; [constructor |].
  apply NoDup_cons in Hnd as [Hx' Hnd]. constructor; [by apply IH |].
  apply Forall_forall. intros y Hy. eapply Forall_forall in Hx; [| exact Hy].
  apply string_leb_cases in Hx as [-> | Hlt]; [done |].
  unfold String.ltb. by rewrite Hlt.
Qed.

Lemma StronglySorted_filter {A : Type} (R : A → A → Prop) (P : A → Prop)
    `{∀ x, Decision (P x)} (l : list A) :
  StronglySorted R l → StronglySorted R (filter P l).
Proof.
  induction 1 as [|x l Hl IH Hx]; [constructor |].
  rewrite filter_cons. case_decide; [| exact IH].
  constructor; [exact IH |]. apply Forall_forall. intros y Hy.
  apply list_elem_of_filter in Hy as [_ Hy]. by eapply Forall_forall in Hx.
Qed.

(** The dictionary of [add_orthologs_to_file]: the genes of each species,
    in the order of the list. *)
Lemma group_lookup (sp : string) : ∀ genes (m0 : gmap string (list string)),
  foldl (λ m g, <[gene_to_species g := default [] (m !! gene_to_species g) ++ [g]]> m)
        m0 genes !! sp
  = match filter (λ g, gene_to_species g = sp) genes with
    | [] => m0 !! sp
    | fl => Some (default [] (m0 !! sp) ++ fl)
    end.
Proof.
  induction genes as [|g genes IH]; intros m0; [reflexivity |].
  simpl foldl. rewrite IH, filter_cons. case_decide as Hg.
  - rewrite Hg, lookup_insert_eq. simpl.
    destruct (filter _ genes); simpl; by rewrite <- ?(assoc_L (++)).
  - by rewrite lookup_insert_ne.
Qed.

Lemma omap_rows (F : string → string) (overlap : gset string) (l : list string) :
  omap (λ sp, if bool_decide (sp ∈ overlap) then None else Some (sp, F sp)) l
  = (λ sp, (sp, F sp)) <$> filter (λ sp, sp ∉ overlap) l.
Proof.
  induction l as [|sp l IH]; [reflexivity |]. rewrite filter_cons.
  change (omap ?f (sp :: l)) with (match f sp with
                                   | Some y => y :: omap f l
                                   | None => omap f l
                                   end).
  destruct (decide (sp ∈ overlap)) as [Hin|Hout].
  - rewrite bool_decide_eq_true_2, decide_False by auto. exact IH.
  - rewrite bool_decide_eq_false_2, decide_True by auto.
    rewrite fmap_cons. by rewrite IH.
Qed.

Lemma fst_rows (F : string → string) (l : list string) :
  fst <$> ((λ sp, (sp, F sp)) <$> l) = l.
Proof. induction l as [|sp l IH]; [reflexivity |]. rewrite !fmap_cons, IH. reflexivity. Qed.

Lemma rows_by_species (genes : list string) (overlap : gset string) :
  let rows := add_orthologs_to_file genes overlap in
  (∀ sp txt, (sp, txt) ∈ rows ↔
     (sp ∉ overlap) ∧ (∃ g, g ∈ genes ∧ gene_to_species g = sp) ∧
     txt = String.concat ", " (filter (λ g, gene_to_species g = sp) genes)) ∧
  StronglySorted (λ a b, String.ltb a b = true) rows.*1.
Proof.
  unfold add_orthologs_to_file.
  set (m := foldl _ ∅ genes).
  assert (Hm : ∀ sp, m !! sp = match filter (λ g, gene_to_species g = sp) genes with
                               | [] => None
                               | fl => Some fl
                               end).
  { intros sp. unfold m. rewrite group_lookup, lookup_empty.
    by destruct (filter _ genes). }
  assert (Hdom : ∀ sp, sp ∈ dom m ↔ ∃ g, g ∈ genes ∧ gene_to_species g = sp).
  { intros sp. rewrite elem_of_dom, Hm. split.
    - destruct (filter _ genes) as [|g fl] eqn:E; [by intros [? ?] |]. intros _.
      assert (Hg : g ∈ filter (λ g, gene_to_species g = sp) genes) by (rewrite E; left).
      apply list_elem_of_filter in Hg as [Hs Hg]. eauto.
    - intros (g & Hg & Hs).
      assert (Hin : g ∈ filter (λ g, gene_to_species g = sp) genes)
        by (by apply list_elem_of_filter).
      destruct (filter _ genes); [by apply elem_of_nil in Hin | by eexists]. }
  rewrite (omap_rows (λ sp, String.concat ", " (default [] (m !! sp)))).
  split.
  - intros sp txt. rewrite list_elem_of_fmap. split.
    + intros (sp' & [= -> ->] & Hin). apply list_elem_of_filter in Hin as [Hov Hin].
      rewrite sorted_perm, elem_of_elements in Hin.
      split; [exact Hov |]. split; [by apply Hdom |].
      rewrite Hm. apply Hdom in Hin as (g & Hg & Hs).
      assert (Hgin : g ∈ filter (λ g, gene_to_species g = sp') genes)
        by (by apply list_elem_of_filter).
      by destruct (filter _ genes); [apply elem_of_nil in Hgin |].
    + intros (Hov & Hex & ->). exists sp. split.
      * f_equal. rewrite Hm. destruct Hex as (g & Hg & Hs).
        assert (Hgin : g ∈ filter (λ g, gene_to_species g = sp) genes)
          by (by apply list_elem_of_filter).
        by destruct (filter _ genes); [apply elem_of_nil in Hgin |].
      * apply list_elem_of_filter. split; [exact Hov |].
        rewrite sorted_perm, elem_of_elements. by apply Hdom.
  - rewrite fst_rows.
    apply StronglySorted_filter, sorted_ascending, NoDup_elements.
Qed.

(** The rows of one call: one row for each species of the genes that is not
    in the overlap, in strictly ascending order of the species, each with
    the genes of that species in the order given, joined by [", "]. *)
Theorem ortholog_rows_by_species (genes : list string) (overlap : gset string) :
  let rows := add_orthologs_to_file genes overlap in
  (∀ sp txt, (sp, txt) ∈ rows ↔
     (sp ∉ overlap) ∧ (∃ g, g ∈ genes ∧ gene_to_species g = sp) ∧
     txt = String.concat ", " (filter (λ g, gene_to_species g = sp) genes)) ∧
  StronglySorted (λ a b, String.ltb a b = true) rows.*1.
Proof. exact (rows_by_species genes overlap). Qed.

(** ** The ortholog file as a whole *)

Lemma string_ltb_irrefl s : String.ltb s s = false.
Proof. unfold String.ltb. by rewrite string_compare_refl. Qed.

Lemma ascending_NoDup (l : list string) :
  StronglySorted (λ a b, String.ltb a b = true) l → NoDup l.
Proof.
  induction 1 as [|x l Hl IH Hx]; constructor; [| exact IH].
  intros Hin. eapply Forall_forall in Hx; [| exact Hin].
  by rewrite string_ltb_irrefl in Hx.
Qed.

(** The species written in a round are species of the sister clade that
    were not seen before, each once. *)
Lemma visit_species n i seen :
  let v := visit_ancestor n i seen in
  NoDup (default [] (rows v)).*1 ∧
  ∀ sp, sp ∈ (default [] (rows v)).*1 → sp ∈ species_other v ∧ sp ∉ seen.
Proof.
  simpl. unfold visit_ancestor. cbn [rows species_other].
  match goal with |- context [emit ?o ?m] => destruct (emit o m) end;
    [| split; [constructor | intros sp Hsp; by apply elem_of_nil in Hsp]].
  cbn [default]. set (genes := flat_map get_leaf_names (delete i (children n))).
  destruct (rows_by_species genes
              (seen ∩ list_to_set (gene_to_species <$> genes))) as [Hrows Hsorted].
  split; [by apply ascending_NoDup |].
  intros sp Hsp. apply list_elem_of_fmap in Hsp as ([sp' txt] & -> & Hin).
  apply Hrows in Hin as (Hov & (g & Hg & Hs) & _). simpl.
  assert (Hother : sp' ∈ (list_to_set (gene_to_species <$> genes) : gset string)).
  { apply elem_of_list_to_set, list_elem_of_fmap. eauto. }
  split; [exact Hother |].
  intros Hseen. apply Hov. by apply elem_of_intersection.
Qed.

Lemma loop_species t : ∀ n seen vs,
  ortholog_loop t n seen = Ok vs →
  let body := concat ((λ v, default [] (rows v)) <$> vs) in
  NoDup body.*1 ∧ ∀ sp, sp ∈ body.*1 → sp ∉ seen.
Proof.
  induction n as [|i parent IH]; intros seen vs Hloop; simpl in Hloop.
  - injection Hloop as <-. simpl. split; [constructor |].
    intros sp Hsp. by apply elem_of_nil in Hsp.
  - destruct (the_node t parent) as [n_up|] eqn:Hup; [| discriminate].
    destruct (ortholog_loop t parent _) as [vs'|] eqn:Hrec; [| discriminate].
    injection Hloop as <-. destruct (IH _ _ Hrec) as [Hnd Hnew].
    destruct (visit_species n_up i seen) as [Hnd0 Hnew0].
    simpl. rewrite fmap_app. split.
    + apply NoDup_app. split; [exact Hnd0 |]. split; [| exact Hnd].
      intros sp Hsp Hsp'. apply Hnew0 in Hsp as [Hother _].
      apply Hnew in Hsp'. apply Hsp', elem_of_union. by right.
    + intros sp Hsp. apply elem_of_app in Hsp as [Hsp | Hsp].
      * by apply Hnew0 in Hsp as [_ Hsp].
      * apply Hnew in Hsp. intros Hseen. apply Hsp, elem_of_union. by left.
Qed.

(** ** The rounds of the ortholog loop *)

Lemma loop_sisters t query vs :
  ortholog_loop t query ∅ = Ok vs →
  ∀ k v, vs !! k = Some v →
    ∃ i n_up,
      v = visit_ancestor n_up i (⋃ (species_other <$> take k vs)) ∧
      genes_other v = sister_genes t query k ∧
      species_other v = species_of (sister_genes t query k).
Proof.
  intros Hloop k v Hk.
  destruct (ortholog_loop_spec t _ _ _ Hloop) as [_ Hall].
  destruct (Hall k v Hk) as (i & parent & n_up & Hdrop & Hup & Hv).
  rewrite union_empty_l_L in Hv. exists i, n_up. split; [exact Hv |].
  unfold sister_genes. rewrite Hdrop, Hup. rewrite Hv. split; reflexivity.
Qed.

Lemma loop_accumulated t query vs :
  ortholog_loop t query ∅ = Ok vs →
  ∀ k, (k ≤ length vs)%nat →
    ⋃ (species_other <$> take k vs) = accumulated t query k.
Proof.
  intros Hloop. induction k as [|k IH]; intros Hlen; [reflexivity |].
  destruct (lookup_lt_is_Some_2 vs k) as [v Hv]; [lia |].
  destruct (loop_sisters t query vs Hloop k v Hv) as (_ & _ & _ & _ & Hother).
  unfold accumulated in *.
  rewrite (take_S_r _ _ _ Hv), seq_S, !fmap_app, !union_list_app_L, IH by lia.
  simpl. by rewrite Hother.
Qed.

(** C6, as amended.  The ortholog file is the header row followed by the
    rows of the rounds of the loop, one round for each ancestor of the
    query.  In the round of the [k]-th ancestor, with the species
    accumulated from the sister clades below it and the species of its
    sister clade: when the overlap [o] is 0, or [m >= 4] and [o = 1], or
    [m >= 9] and [o = 2], with [m] the smaller of the two sizes, the genes
    of the sister clade are written, one row for each of its species that
    was not accumulated; otherwise nothing is written.  So a sister clade
    of 4 species with 1 overlap is written when at least 4 species have
    been accumulated, and one of 3 species with 1 overlap is not. *)
Theorem C6_emission_thresholds t gene_name file :
  write_orthologs t gene_name = Ok file →
  ∃ query rounds,
    tree_and t gene_name = Ok query ∧ length rounds = length query ∧
    file = ("Species", "Orthologs") :: concat rounds ∧
    ∀ k written, rounds !! k = Some written →
      let genes := sister_genes t query k in
      let other := species_of genes in
      let seen := accumulated t query k in
      (tolerated seen other →
         ∀ sp txt, (sp, txt) ∈ written ↔
           (sp ∉ seen) ∧ (∃ g, g ∈ genes ∧ gene_to_species g = sp) ∧
           txt = String.concat ", " (filter (λ g, gene_to_species g = sp) genes)) ∧
      (¬ tolerated seen other → written = []) ∧
      (size other = 4%nat → (4 ≤ size seen)%nat → size (seen ∩ other) = 1%nat →
         ∀ g, g ∈ genes → gene_to_species g ∉ seen →
           ∃ txt, (gene_to_species g, txt) ∈ written) ∧
      (size other = 3%nat → size (seen ∩ other) = 1%nat → written = []).
Proof.
  unfold write_orthologs, ortholog_visits. intros Hw.
  apply bind_Ok in Hw as (vs & Hvs & Hfile). injection Hfile as <-.
  apply bind_Ok in Hvs as (query & Hq & Hloop).
  exists query, ((λ v, default [] (rows v)) <$> vs).
  split; [exact Hq |].
  destruct (ortholog_loop_spec t _ _ _ Hloop) as [Hlen _].
  split; [by rewrite length_fmap |]. split; [reflexivity |].
  intros k written Hk. rewrite list_lookup_fmap in Hk.
  destruct (vs !! k) as [v|] eqn:Hv; [| discriminate]. injection Hk as <-.
  destruct (loop_sisters t query vs Hloop k v Hv) as (i & n_up & Hvisit & Hgenes & Hother).
  pose proof (lookup_lt_Some _ _ _ Hv) as Hlt.
  rewrite (loop_accumulated t query vs Hloop k) in Hvisit by lia.
  destruct (visit_rows n_up i (accumulated t query k) v Hvisit) as [Hyes Hno].
  rewrite Hother, Hgenes in Hyes. rewrite Hother in Hno.
  set (genes := sister_genes t query k) in *.
  set (seen := accumulated t query k) in *.
  assert (Hrows : tolerated seen (species_of genes) →
            ∀ sp txt, (sp, txt) ∈ default [] (rows v) ↔
              (sp ∉ seen) ∧ (∃ g, g ∈ genes ∧ gene_to_species g = sp) ∧
              txt = String.concat ", " (filter (λ g, gene_to_species g = sp) genes)).
  { intros Htol sp txt. rewrite (Hyes Htol). cbn [default].
    destruct (rows_by_species genes (seen ∩ species_of genes)) as [Hmem _].
    rewrite Hmem. split.
    - intros (Hov & (g & Hg & Hs) & Htxt). split; [| split; [eauto | exact Htxt]].
      intros Hseen. apply Hov, elem_of_intersection. split; [exact Hseen |].
      apply elem_of_list_to_set, list_elem_of_fmap. eauto.
    - intros (Hseen & Hex & Htxt). split; [| split; [exact Hex | exact Htxt]].
      intros Hov. apply elem_of_intersection in Hov as [Hs _]. by apply Hseen. }
  assert (Hnone : ¬ tolerated seen (species_of genes) → default [] (rows v) = []).
  { intros Hnot. by rewrite (Hno Hnot). }
  split; [exact Hrows |]. split; [exact Hnone |]. split.
  - intros H4 Hs H1 g Hg Hnew. eexists. apply Hrows.
    + unfold tolerated. lia.
    + split; [exact Hnew |]. split; [eauto | reflexivity].
  - intros H3 H1. apply Hnone. unfold tolerated. lia.
Qed.

Lemma C6_emission_thresholds_witness :
  ∃ file rounds written txt,
    write_orthologs sister4 "q_q_1" = Ok file ∧
    file = ("Species", "Orthologs") :: concat rounds ∧
    rounds !! 1%nat = Some written ∧ ("e_e", txt) ∈ written.
Proof.
  destruct (write_orthologs sister4 "q_q_1") as [file|e] eqn:E;
    [| vm_compute in E; discriminate].
  destruct (C6_emission_thresholds sister4 "q_q_1" file E)
    as (query & rounds & Hq & Hlen & Hfile & Hall).
  vm_compute in Hq. injection Hq as <-.
  destruct (lookup_lt_is_Some_2 rounds 1%nat) as [written Hwritten];
    [rewrite Hlen; simpl; lia |].
  destruct (Hall 1%nat written Hwritten) as (_ & _ & H4 & _).
  destruct (H4 eq_refl) with (g := "e_e_1") as [txt Htxt].
  - vm_compute. lia.
  - reflexivity.
  - apply (bool_decide_unpack _). vm_compute. exact I.
  - apply (bool_decide_unpack _). vm_compute. exact I.
  - exists file, rounds, written, txt. auto.
Defined.

(** C6 as stated fails where it says that a sister clade of 4 species with
    1 overlapping species is written: in [((q,a1),(a2,e,f,g))] the second
    ancestor of the query meets a sister clade of the 4 species [a], [e],
    [f] and [g], of which [a] alone was accumulated; [m] is 1, the size of
    the accumulated set, and nothing is written for the clade. *)
Lemma C6_four_species_not_written :
  tree_and sparse "q_q_1" = Ok [0; 0]%nat ∧
  sister_genes sparse [0; 0]%nat 1 = ["a_a_2"; "e_e_1"; "f_f_1"; "g_g_1"] ∧
  size (species_of (sister_genes sparse [0; 0]%nat 1)) = 4%nat ∧
  size (accumulated sparse [0; 0]%nat 1
        ∩ species_of (sister_genes sparse [0; 0]%nat 1)) = 1%nat ∧
  write_orthologs sparse "q_q_1" = Ok [("Species", "Orthologs"); ("a_a", "a_a_1")].
Proof. repeat split; vm_compute; reflexivity. Qed.

(** The ortholog file starts with the header, and below it no species has
    two rows: a species written at one ancestor is in the accumulated set
    at every ancestor above, where it counts as overlap. *)
Theorem no_species_has_two_rows t gene_name file :
  write_orthologs t gene_name = Ok file →
  ∃ body, file = ("Species", "Orthologs") :: body ∧ NoDup body.*1.
Proof.
  unfold write_orthologs, ortholog_visits. intros Hw.
  apply bind_Ok in Hw as (vs & Hvs & Hfile). injection Hfile as <-.
  apply bind_Ok in Hvs as (n & _ & Hloop).
  eexists. split; [reflexivity |]. by destruct (loop_species t n ∅ vs Hloop).
Qed.

Lemma no_species_has_two_rows_witness :
  ∃ file body,
    write_orthologs sister4 "q_q_1" = Ok file ∧
    file = ("Species", "Orthologs") :: body ∧ NoDup body.*1.
Proof.
  destruct (write_orthologs sister4 "q_q_1") as [file|e] eqn:E;
    [| vm_compute in E; discriminate].
  destruct (no_species_has_two_rows sister4 "q_q_1" file E) as (body & Hf & Hnd).
  exists file, body. auto.
Defined.

Lemma species_of_children (cs : list TreeNode) (i : nat) (m : TreeNode) :
  cs !! i = Some m →
  (list_to_set (gene_to_species <$> flat_map get_leaf_names cs) : gset string)
  = list_to_set (gene_to_species <$> get_leaf_names m)
    ∪ list_to_set (gene_to_species <$> flat_map get_leaf_names (delete i cs)).
Proof.
  revert i. induction cs as [|c cs IH]; intros [|i] Hm; try discriminate; simpl in *.
  - injection Hm as ->. by rewrite fmap_app, list_to_set_app_L.
  - rewrite !fmap_app, !list_to_set_app_L, (IH i Hm).
    apply set_eq. intros x. rewrite !elem_of_union. tauto.
Qed.

Lemma leaf_names_of_children n i m :
  children n !! i = Some m →
  get_leaf_names n = flat_map get_leaf_names (children n).
Proof.
  destruct n as [s d [|c cs]]; [discriminate |]. intros _.
  unfold get_leaf_names at 1. rewrite get_leaves_node.
  symmetry. apply flat_map_leaf_names.
Qed.

(** At every ancestor of the query, the species of the genes below the
    ancestor are those of the genes below the query node, those
    accumulated so far and those of the sister clade. *)
Theorem accumulated_species_cover_the_clade t gene_name vs :
  ortholog_visits t gene_name = Ok vs →
  ∃ query start,
    tree_and t gene_name = Ok query ∧ node_at t query = Some start ∧
    ∀ k v, vs !! k = Some v →
      ∃ n_up, node_at t (drop (S k) query) = Some n_up ∧
        (list_to_set (gene_to_species <$> get_leaf_names n_up) : gset string)
        = list_to_set (gene_to_species <$> get_leaf_names start)
          ∪ species_query_branch v ∪ species_other v.
Proof.
  unfold ortholog_visits. intros Hvs.
  apply bind_Ok in Hvs as (query & Hq & Hloop).
  destruct (tree_and_valid _ _ _ Hq) as (start & Hstart & _).
  exists query, start. split; [exact Hq |]. split; [exact Hstart |].
  set (base := list_to_set (gene_to_species <$> get_leaf_names start) : gset string).
  assert (Hgen : ∀ n seen m vs,
            node_at t n = Some m →
            (list_to_set (gene_to_species <$> get_leaf_names m) : gset string)
            = base ∪ seen →
            ortholog_loop t n seen = Ok vs →
            ∀ k v, vs !! k = Some v →
              ∃ n_up, node_at t (drop (S k) n) = Some n_up ∧
                (list_to_set (gene_to_species <$> get_leaf_names n_up) : gset string)
                = base ∪ species_query_branch v ∪ species_other v).
  { clear. induction n as [|i parent IH]; intros seen m vs Hm Hinv Hloop k v Hk;
      simpl in Hloop.
    - injection Hloop as <-. by rewrite lookup_nil in Hk.
    - destruct (node_at_parent _ _ _ _ Hm) as (n_up & Hup & Hi).
      rewrite (proj2 (the_node_Ok _ _ _) Hup) in Hloop.
      destruct (ortholog_loop t parent _) as [vs'|] eqn:Hrec; [| discriminate].
      injection Hloop as <-.
      assert (Hcover : (list_to_set (gene_to_species <$> get_leaf_names n_up)
                        : gset string)
                       = base ∪ seen ∪ species_other (visit_ancestor n_up i seen)).
      { rewrite (leaf_names_of_children _ _ _ Hi), (species_of_children _ _ _ Hi), Hinv.
        reflexivity. }
      destruct k as [|k]; simpl in Hk.
      + injection Hk as <-. exists n_up. split; [exact Hup | exact Hcover].
      + eapply (IH _ n_up vs' Hup) in Hk; [exact Hk | | exact Hrec].
        rewrite Hcover. by rewrite (assoc_L (∪)). }
  apply (Hgen query ∅ start vs Hstart); [| exact Hloop].
  by rewrite union_empty_r_L.
Qed.

Lemma accumulated_species_cover_the_clade_witness :
  ∃ vs query start,
    ortholog_visits sister3 "q_q_1" = Ok vs ∧
    tree_and sister3 "q_q_1" = Ok query ∧ node_at sister3 query = Some start.
Proof.
  destruct (ortholog_visits sister3 "q_q_1") as [vs|e] eqn:E;
    [| vm_compute in E; discriminate].
  destruct (accumulated_species_cover_the_clade sister3 "q_q_1" vs E)
    as (query & start & Hq & Hs & _).
  exists vs, query, start. auto.
Defined.

(** ** The narrowed tree *)

(** Lines 81-95 of [main], for a query that is a leaf, a tree with more
    leaves than the upper bound, and an upper bound of at least 2.  The
    tree written is a subtree that holds the query leaf.  Either it has
    fewer leaves than the upper bound, its parent has at least as many as
    the upper bound, and it has at least as many as the lower bound when
    one is set; or a lower bound is set, the subtree has at least as many
    leaves as the upper bound, and its child towards the query has fewer
    leaves than both bounds. *)
Theorem narrowed_tree_holds_the_query t query_gene nU nL leaf n :
  tree_and t query_gene = Ok leaf → node_at t leaf = Some n → children n = [] →
  (nU < len t)%Z → (2 ≤ nU)%Z →
  ∃ p sub,
    narrow_node t query_gene (Some nU) nL = Ok (Some p) ∧
    narrow t query_gene (Some nU) nL = Ok (Some sub) ∧
    node_at t p = Some sub ∧ n ∈ get_leaves sub ∧
    (((len sub < nU)%Z ∧
      (∃ i q above, p = i :: q ∧ node_at t q = Some above ∧ (nU ≤ len above)%Z) ∧
      (∀ l, nL = Some l → (l ≤ len sub)%Z))
     ∨
     ((nU ≤ len sub)%Z ∧
      ∃ l i below, nL = Some l ∧ node_at t (i :: p) = Some below ∧
        n ∈ get_leaves below ∧ (len below < l)%Z ∧ (len below < nU)%Z)).
Proof.
  intros Hq Hn Hleaf Hbig H2.
  destruct (narrow_choice t query_gene nU None leaf n Hq Hn Hleaf Hbig H2)
    as (a & prev & mprev & mnode & p0 & sub0 & Ha & Hprev & Hmprev & Hk & Hlt
        & Hmnode & Hge & Hup & _ & _ & Hsub0 & _ & Hin0 & ->).
  rewrite Hmprev in Hsub0. injection Hsub0 as <-.
  destruct (narrow_choice t query_gene nU nL leaf n Hq Hn Hleaf Hbig H2)
    as (a' & prev' & mprev' & mnode' & p & sub & Ha' & Hprev' & Hmprev' & _ & _
        & Hmnode' & _ & _ & Hnn & Hnarrow & Hsub & _ & Hin & Hp).
  rewrite Ha in Ha'. injection Ha' as <-.
  rewrite Hprev in Hprev'. injection Hprev' as <-.
  rewrite Hmprev in Hmprev'. injection Hmprev' as <-.
  rewrite Hmnode in Hmnode'. injection Hmnode' as <-.
  exists p, sub. do 4 (split; [assumption |]).
  destruct prev as [|i q]; [discriminate |]. simpl in Hup. injection Hup as ->.
  set (q := node a) in *.
  assert (Hsmall : node_at t p = Some mprev → (∀ l, nL = Some l → (l ≤ len mprev)%Z) →
                   p = i :: q →
                   (len sub < nU)%Z ∧
                   (∃ i q above, p = i :: q ∧ node_at t q = Some above
                                 ∧ (nU ≤ len above)%Z) ∧
                   (∀ l, nL = Some l → (l ≤ len sub)%Z)).
  { intros Hpm HnL Hpq. rewrite Hsub in Hpm. injection Hpm as ->.
    split; [exact Hlt |]. split; [| exact HnL].
    exists i, q, mnode. auto. }
  destruct nL as [l|].
  - case_bool_decide as Hl; subst p.
    + left. apply Hsmall; [exact Hmprev | | reflexivity]. by intros l' [= <-].
    + right. rewrite Hmnode in Hsub. injection Hsub as <-.
      split; [exact Hge |]. exists l, i, mprev.
      repeat split; auto; lia.
  - subst p. left. apply Hsmall; [exact Hmprev | | reflexivity]. by intros l' [=].
Qed.

Lemma narrowed_tree_holds_the_query_witness :
  ∃ p sub,
    narrow_node t8 "A" (Some 3%Z) (Some 3%Z) = Ok (Some p) ∧
    narrow t8 "A" (Some 3%Z) (Some 3%Z) = Ok (Some sub) ∧
    node_at t8 p = Some sub ∧ leaf "A" 1 ∈ get_leaves sub.
Proof.
  destruct (narrowed_tree_holds_the_query t8 "A" 3%Z (Some 3%Z) [0; 0; 0]%nat (leaf "A" 1))
    as (p & sub & Hnn & Hnarrow & Hsub & Hin & _);
    [reflexivity | reflexivity | reflexivity | vm_compute; reflexivity | lia |].
  exists p, sub. auto.
Defined.

(** ** The query file *)

Lemma universal_newlines_no_CR s : CR ∉ universal_newlines s.
Proof.
  assert (H : ∀ n s, (length s ≤ n)%nat → CR ∉ universal_newlines s).
  { clear s. induction n as [|n IH]; intros [|c s] Hlen; simpl in *;
      try apply not_elem_of_nil; [lia |].
    destruct (c =? CR)%N eqn:Hc.
    - apply not_elem_of_cons. split; [discriminate |].
      destruct s as [|c' s']; [apply not_elem_of_nil |].
      destruct (c' =? LF)%N; apply IH; simpl in *; lia.
    - apply not_elem_of_cons. split; [| apply IH; lia].
      intros <-. discriminate. }
  by apply (H (length s)).
Qed.

Lemma universal_newlines_id s : CR ∉ s → universal_newlines s = s.
Proof.
  induction s as [|c s IH]; [reflexivity |]. intros Hs.
  apply not_elem_of_cons in Hs as [Hc Hs]. simpl.
  destruct (c =? CR)%N eqn:E; [apply N.eqb_eq in E; congruence |].
  by rewrite IH.
Qed.

Lemma concat_readlines s : concat (readlines s) = s.
Proof.
  induction s as [|c s IH]; [reflexivity |]. simpl.
  destruct (c =? LF)%N; [simpl; by rewrite IH |].
  destruct (readlines s) as [|l ls]; simpl in *; by rewrite <- IH.
Qed.

Lemma readlines_line body x :
  LF ∉ body → readlines (body ++ LF :: x) = (body ++ [LF]) :: readlines x.
Proof.
  induction body as [|c body IH]; intros Hbody; [reflexivity |].
  apply not_elem_of_cons in Hbody as [Hc Hbody]. simpl.
  destruct (c =? LF)%N eqn:E; [apply N.eqb_eq in E; congruence |].
  by rewrite (IH Hbody).
Qed.

(** The first line has its only line feed at its end, or is the whole
    text; the lines after it are the lines of their own text. *)
Lemma readlines_inv s acc rest :
  readlines s = acc :: rest →
  readlines (concat rest) = rest ∧
  ((∃ body, acc = body ++ [LF] ∧ LF ∉ body) ∨ (rest = [] ∧ LF ∉ acc)).
Proof.
  revert acc rest. induction s as [|c s IH]; intros acc rest; [discriminate |]. simpl.
  destruct (c =? LF)%N eqn:E.
  - apply N.eqb_eq in E as ->. intros [= <- <-]. rewrite concat_readlines.
    split; [reflexivity |]. left. exists []. split; [reflexivity | apply not_elem_of_nil].
  - apply N.eqb_neq in E. destruct (readlines s) as [|l ls] eqn:Hs.
    + intros [= <- <-]. split; [reflexivity |]. right. split; [reflexivity |].
      apply not_elem_of_cons. split; [congruence | apply not_elem_of_nil].
    + intros [= <- <-]. destruct (IH l ls eq_refl) as [Hls [(body & -> & Hbody) | [-> Hl]]].
      * split; [exact Hls |]. left. exists (c :: body). split; [reflexivity |].
        apply not_elem_of_cons. split; [congruence | exact Hbody].
      * split; [reflexivity |]. right. split; [reflexivity |].
        apply not_elem_of_cons. split; [congruence | exact Hl].
Qed.

Lemma rstrip_space s c : isspace c = true → rstrip (s ++ [c]) = rstrip s.
Proof.
  intros Hc. induction s as [|a s IH]; simpl; [by rewrite Hc |]. by rewrite IH.
Qed.

Lemma rstrip_id s : forallb (λ c, negb (isspace c)) s = true → rstrip s = s.
Proof.
  induction s as [|c s IH]; [reflexivity |]. simpl.
  intros [Hc Hs]%andb_true_iff. rewrite (IH Hs).
  destruct s; [| reflexivity]. by destruct (isspace c).
Qed.

Lemma allowed_not_space c : allowed c = true → isspace c = false.
Proof.
  intros Hc. apply not_true_iff_false. intros Hs. unfold allowed, isspace in *.
  repeat (rewrite ?orb_true_iff, ?andb_true_iff, ?N.leb_le, ?N.eqb_eq in Hc).
  repeat (rewrite ?orb_true_iff, ?andb_true_iff, ?N.leb_le, ?N.eqb_eq in Hs).
  lia.
Qed.

Lemma re_sub_allowed name : forallb allowed (re_sub name) = true.
Proof.
  induction name as [|c name IH]; [reflexivity |].
  unfold re_sub in *. rewrite fmap_cons. simpl. rewrite IH, andb_true_r.
  by destruct (allowed c) eqn:E.
Qed.

Lemma re_sub_fixed name : name = re_sub name ↔ forallb allowed name = true.
Proof.
  split; [intros H; rewrite H; apply re_sub_allowed |].
  induction name as [|c name IH]; [reflexivity |]. cbn [forallb].
  intros [Hc Hs]%andb_true_iff. unfold re_sub in *. rewrite fmap_cons, Hc.
  f_equal. by apply IH.
Qed.

Lemma allowed_forall (P : N → Prop) s :
  (∀ c, allowed c = true → P c) → forallb allowed s = true → Forall P s.
Proof.
  intros HP. induction s as [|c s IH]; [constructor |]. simpl.
  intros [Hc Hs]%andb_true_iff. constructor; auto.
Qed.

Lemma string_length_app (s1 s2 : string) :
  String.length (s1 +:+ s2) = (String.length s1 + String.length s2)%nat.
Proof.
  induction s1 as [|a s1 IH]; [reflexivity |].
  change (S (String.length (s1 +:+ s2)) = S (String.length s1 + String.length s2)).
  by rewrite IH.
Qed.

Lemma cleaned_name_differs (infn : string) : infn +:+ ".sh.cleaned" ≠ infn.
Proof.
  intros H. apply (f_equal String.length) in H.
  rewrite string_length_app in H. simpl in H. lia.
Qed.

Lemma open_lines_no_CR d fn acc rest :
  open_lines d fn = Returns (acc :: rest) → CR ∉ concat rest.
Proof.
  unfold open_lines. destruct (d !! fn) as [content|]; [| discriminate].
  intros [= Hlines]. intros Hin.
  apply (universal_newlines_no_CR content).
  rewrite <- (concat_readlines (universal_newlines content)), Hlines. simpl.
  apply elem_of_app. by right.
Qed.

Lemma open_lines_rest d fn acc rest :
  open_lines d fn = Returns (acc :: rest) → readlines (concat rest) = rest.
Proof.
  unfold open_lines. destruct (d !! fn) as [content|]; [| discriminate].
  intros [= Hlines]. by destruct (readlines_inv _ _ _ Hlines).
Qed.

(** The file that [clean_fasta] writes, read back. *)
Lemma cleaned_file_lines (d : disk) fn name rest :
  forallb allowed name = true → CR ∉ concat rest → readlines (concat rest) = rest →
  open_lines (<[fn := (GT :: name ++ [LF]) ++ concat rest]> d) fn
  = Returns ((GT :: name ++ [LF]) :: rest).
Proof.
  intros Hname Hcr Hrest. unfold open_lines, disk in *. rewrite lookup_insert_eq.
  assert (Hno : ∀ x, isspace x = true → x ∉ GT :: name).
  { intros x Hx. apply not_elem_of_cons. split; [by intros -> |].
    intros Hin. eapply Forall_forall in Hin;
      [| apply (allowed_forall (λ c, isspace c = false) _ allowed_not_space Hname)].
    simpl in Hin. congruence. }
  rewrite universal_newlines_id.
  - change ((GT :: name ++ [LF]) ++ concat rest)
      with (((GT :: name) ++ [LF]) ++ concat rest).
    rewrite <- (assoc_L (++)). simpl ([LF] ++ _).
    rewrite (readlines_line (GT :: name)) by (by apply Hno).
    by rewrite Hrest.
  - intros Hin. apply elem_of_app in Hin as [Hin | Hin]; [| by apply Hcr].
    change (GT :: name ++ [LF]) with ((GT :: name) ++ [LF]) in Hin.
    apply elem_of_app in Hin as [Hin | Hin]; [by apply (Hno CR) |].
    apply list_elem_of_singleton in Hin. discriminate.
Qed.

Lemma cleaned_header_name name :
  forallb allowed name = true → drop 1 (rstrip (GT :: name ++ [LF])) = name.
Proof.
  intros Hname. change (GT :: name ++ [LF]) with ((GT :: name) ++ [LF]).
  rewrite rstrip_space by reflexivity. rewrite rstrip_id; [reflexivity |].
  simpl. induction name as [|c name IH]; [reflexivity |]. simpl in *.
  apply andb_true_iff in Hname as [Hc Hname].
  by rewrite (allowed_not_space c Hc), IH.
Qed.

(** What a call of [clean_fasta] that returns has done. *)
Lemma clean_fasta_spec d infn fn d' :
  clean_fasta d infn = Returns (fn, d') →
  ∃ acc rest acc',
    open_lines d infn = Returns (acc :: rest) ∧
    open_lines d' fn = Returns (acc' :: rest) ∧
    drop 1 (rstrip acc') = re_sub (drop 1 (rstrip acc)) ∧
    d' !! infn = d !! infn ∧
    ((acc' = acc ∧ fn = infn ∧ d' = d) ∨
     (acc' = GT :: re_sub (drop 1 (rstrip acc)) ++ [LF] ∧ fn = infn +:+ ".sh.cleaned" ∧
      d' = <[fn := acc' ++ concat rest]> d ∧
      drop 1 (rstrip acc) ≠ re_sub (drop 1 (rstrip acc)))).
Proof.
  unfold clean_fasta. destruct (open_lines d infn) as [[|acc rest]|e] eqn:Hopen;
    try discriminate.
  simpl. case_decide as Hname.
  - intros [= <- <-]. exists acc, rest, acc. repeat split; auto.
  - intros [= <- <-]. exists acc, rest, (GT :: re_sub (drop 1 (rstrip acc)) ++ [LF]).
    split; [reflexivity |]. split.
    { apply cleaned_file_lines;
        [apply re_sub_allowed | by eapply open_lines_no_CR | by eapply open_lines_rest]. }
    split; [apply cleaned_header_name, re_sub_allowed |].
    split; [apply lookup_insert_ne, cleaned_name_differs |].
    right. auto.
Qed.

(** The file that [clean_fasta] hands on has the lines of the input file
    after the first, and an accession of allowed characters only: the one
    of the input with each other character replaced by an underscore.  The
    input file is left as it was. *)
Theorem cleaned_accession_is_allowed d infn fn d' :
  clean_fasta d infn = Returns (fn, d') →
  ∃ acc rest acc',
    open_lines d infn = Returns (acc :: rest) ∧
    open_lines d' fn = Returns (acc' :: rest) ∧
    forallb allowed (drop 1 (rstrip acc')) = true ∧
    length (drop 1 (rstrip acc')) = length (drop 1 (rstrip acc)) ∧
    (∀ i c, drop 1 (rstrip acc) !! i = Some c →
       drop 1 (rstrip acc') !! i = Some (if allowed c then c else UNDERSCORE)) ∧
    d' !! infn = d !! infn.
Proof.
  intros Hrun.
  destruct (clean_fasta_spec _ _ _ _ Hrun) as (acc & rest & acc' & Hin & Hout & Hname & Hkeep & _).
  exists acc, rest, acc'. rewrite Hname. repeat split; auto.
  - apply re_sub_allowed.
  - unfold re_sub. by rewrite length_fmap.
  - intros i c Hi. unfold re_sub. by rewrite list_lookup_fmap, Hi.
Qed.

Lemma cleaned_accession_is_allowed_witness :
  ∃ fn d' acc rest acc',
    clean_fasta query_disk "q.fa" = Returns (fn, d') ∧
    open_lines query_disk "q.fa" = Returns (acc :: rest) ∧
    open_lines d' fn = Returns (acc' :: rest) ∧
    forallb allowed (drop 1 (rstrip acc')) = true.
Proof.
  destruct (clean_fasta query_disk "q.fa") as [[fn d']|e] eqn:E;
    [| vm_compute in E; discriminate].
  destruct (cleaned_accession_is_allowed query_disk "q.fa" fn d' E)
    as (acc & rest & acc' & Hin & Hout & Hok & _).
  exists fn, d', acc, rest, acc'. auto.
Defined.

(** Cleaning the file that [clean_fasta] hands on changes nothing: the
    same file name is returned and no file is written. *)
Theorem clean_fasta_twice d infn fn d' :
  clean_fasta d infn = Returns (fn, d') → clean_fasta d' fn = Returns (fn, d').
Proof.
  intros Hrun.
  destruct (clean_fasta_spec _ _ _ _ Hrun) as (acc & rest & acc' & _ & Hout & Hname & _).
  unfold clean_fasta. rewrite Hout. simpl.
  rewrite decide_True; [reflexivity |].
  apply re_sub_fixed. rewrite Hname. apply re_sub_allowed.
Qed.

Lemma clean_fasta_twice_witness :
  ∃ fn d', clean_fasta query_disk "q.fa" = Returns (fn, d') ∧
           fn ≠ "q.fa" ∧ clean_fasta d' fn = Returns (fn, d').
Proof.
  destruct (clean_fasta query_disk "q.fa") as [[fn d']|e] eqn:E;
    [| vm_compute in E; discriminate].
  exists fn, d'. split; [reflexivity |]. split.
  - vm_compute in E. injection E as <- _. discriminate.
  - exact (clean_fasta_twice query_disk "q.fa" fn d' E).
Defined.

(** A query file that passes the format check of [main] is cleaned
    without an exception, and the file handed on passes the check too. *)
Theorem cleaning_keeps_the_format d infn :
  format_ok d infn = Returns true →
  ∃ fn d', clean_fasta d infn = Returns (fn, d') ∧ format_ok d' fn = Returns true.
Proof.
  unfold format_ok. destruct (open_lines d infn) as [[|acc rest]|e] eqn:Hopen;
    try discriminate.
  destruct (match_header acc) eqn:Hhead; [| discriminate].
  destruct rest as [|l rest]; [discriminate |]. intros [= Hseq].
  assert (Hrun : ∃ fn d', clean_fasta d infn = Returns (fn, d')).
  { unfold clean_fasta. rewrite Hopen. simpl. case_decide; eauto. }
  destruct Hrun as (fn & d' & Hrun). exists fn, d'. split; [exact Hrun |].
  destruct (clean_fasta_spec _ _ _ _ Hrun)
    as (acc0 & rest0 & acc' & Hin & Hout & _ & _ & Hcase).
  rewrite Hopen in Hin. injection Hin as <- <-. rewrite Hout.
  assert (Hhead' : match_header acc' = true).
  { destruct Hcase as [(-> & _) | (-> & _ & _ & Hne)]; [exact Hhead |].
    destruct (drop 1 (rstrip acc)) as [|c name]; [by destruct Hne |].
    unfold re_sub. rewrite fmap_cons. simpl.
    destruct (allowed c) eqn:Hc; [| reflexivity].
    destruct (c =? LF)%N eqn:E; [| reflexivity].
    apply N.eqb_eq in E as ->. discriminate. }
  by rewrite Hhead', Hseq.
Qed.

Lemma cleaning_keeps_the_format_witness :
  ∃ fn d', clean_fasta query_disk "q.fa" = Returns (fn, d') ∧
           format_ok d' fn = Returns true.
Proof.
  apply (cleaning_keeps_the_format query_disk "q.fa"). vm_compute. reflexivity.
Defined.
